(** * Detroit block analytics: the block assignment engine

    A shallow embedding of the address based block assigner
    ([lib/block-detector-v2.js]) and of the geometric block detector
    ([lib/block-detector.js]), followed by the properties of the engine.

    Modelling conventions.
    - JavaScript strings are [string]s; case mapping and white space follow
      ECMAScript on the ASCII range, and characters above 127 are caseless
      symbols that are not white space.
    - JavaScript numbers that hold house numbers, block sizes and counters are
      integers ([Z]): on integers below 2^53 the double precision operations
      used by the code ([-], [*], [Math.floor (a / b)], [<], [>]) agree with
      the exact ones.
    - [null] and [undefined] are explicit constructors or [None].
    - A [Map] is an association list in insertion order. *)

From Stdlib Require Import ZArith List String Ascii Bool Lia DecimalString QArith.
From Stdlib Require Import Sorted Permutation.
From Stdlib Require DecimalPos.
Import ListNotations.

Local Open Scope string_scope.
Local Open Scope Z_scope.

(** ** JavaScript values and strings *)

(** The values an address or a name can hold. *)
Inductive jsval : Type :=
| JUndefined
| JNull
| JString (s : string).

(** [l.push(x)] *)
Definition push {A : Type} (l : list A) (x : A) : list A := (l ++ [x])%list.

(** ** Maps in insertion order *)

Section JsMap.
Context {K V : Type} (eqb : K -> K -> bool).

Fixpoint map_get (k : K) (m : list (K * V)) : option V :=
  match m with
  | [] => None
  | (k', v) :: m' => if eqb k k' then Some v else map_get k m'
  end.

Definition map_has (k : K) (m : list (K * V)) : bool :=
  match map_get k m with
  | Some _ => true
  | None => false
  end.

(** [m.set(k, v)]: a present key keeps its place. *)
Fixpoint map_set (k : K) (v : V) (m : list (K * V)) : list (K * V) :=
  match m with
  | [] => [(k, v)]
  | (k', v') :: m' =>
      if eqb k k' then (k, v) :: m' else (k', v') :: map_set k v m'
  end.
End JsMap.

Module JsString.

Definition code (c : ascii) : nat := nat_of_ascii c.

Definition in_range (lo hi : nat) (c : ascii) : bool :=
  (Nat.leb lo (code c) && Nat.leb (code c) hi)%bool.

(** [\d] *)
Definition is_digit (c : ascii) : bool := in_range 48 57 c.

(** [a-z] and [A-Z] *)
Definition is_lower (c : ascii) : bool := in_range 97 122 c.
Definition is_upper (c : ascii) : bool := in_range 65 90 c.

(** [\s], which is also what [trim] removes: TAB, LF, VT, FF, CR, SP. *)
Definition is_space (c : ascii) : bool :=
  (in_range 9 13 c || Nat.eqb (code c) 32)%bool.

(** [.] without the [s] flag: anything but a line terminator. *)
Definition is_dot (c : ascii) : bool :=
  negb (Nat.eqb (code c) 10 || Nat.eqb (code c) 13)%bool.

Definition lower_char (c : ascii) : ascii :=
  if is_upper c then ascii_of_nat (code c + 32) else c.

Definition upper_char (c : ascii) : ascii :=
  if is_lower c then ascii_of_nat (code c - 32) else c.

Fixpoint map_string (f : ascii -> ascii) (s : string) : string :=
  match s with
  | EmptyString => EmptyString
  | String c s' => String (f c) (map_string f s')
  end.

Definition toLowerCase : string -> string := map_string lower_char.
Definition toUpperCase : string -> string := map_string upper_char.

Fixpoint trimStart (s : string) : string :=
  match s with
  | EmptyString => EmptyString
  | String c s' => if is_space c then trimStart s' else s
  end.

Fixpoint trimEnd (s : string) : string :=
  match s with
  | EmptyString => EmptyString
  | String c s' =>
      let t := trimEnd s' in
      if (is_space c && (t =? ""))%bool%string then EmptyString else String c t
  end.

Definition trim (s : string) : string := trimEnd (trimStart s).

(** [s.replace(/\s+/g, '_')]: every maximal run of white space becomes one
    underscore; [in_run] tells that the previous character was white space. *)
Fixpoint replace_spaces_from (in_run : bool) (s : string) : string :=
  match s with
  | EmptyString => EmptyString
  | String c s' =>
      if is_space c
      then if in_run then replace_spaces_from true s'
           else String "_" (replace_spaces_from true s')
      else String c (replace_spaces_from false s')
  end.

Definition replace_spaces : string -> string := replace_spaces_from false.

(** [[a-z0-9_]] *)
Definition is_name_char (c : ascii) : bool :=
  (is_lower c || is_digit c || Nat.eqb (code c) 95)%bool.

(** [s.replace(/[^a-z0-9_]/g, '')] *)
Fixpoint strip_special (s : string) : string :=
  match s with
  | EmptyString => EmptyString
  | String c s' =>
      if is_name_char c then String c (strip_special s') else strip_special s'
  end.

(** [parseInt] on a run of decimal digits. *)
Definition digit_value (c : ascii) : Z := Z.of_nat (code c - 48).

Fixpoint parse_digits (acc : Z) (s : string) : Z :=
  match s with
  | EmptyString => acc
  | String c s' => parse_digits (10 * acc + digit_value c) s'
  end.

Definition parseInt (s : string) : Z := parse_digits 0 s.

(** [String(n)] for an integer [n]. *)
Definition of_Z (n : Z) : string := NilZero.string_of_int (Z.to_int n).

(** [s.substring(0, 1)] *)
Definition first_char (s : string) : string := substring 0 1 s.

(** Every character of [s] satisfies [p]. *)
Fixpoint all_chars (p : ascii -> bool) (s : string) : bool :=
  match s with
  | EmptyString => true
  | String c s' => (p c && all_chars p s')%bool
  end.

End JsString.

(** ** Regular expressions

    The two patterns of [parseAddress] use literals, character classes,
    sequencing, ordered alternation, a greedy optional group, greedy and lazy
    [+] over a character class, capture groups and the end anchor.  [exec]
    runs the backtracking search of ECMAScript on them, anchored at the start
    of the input (both patterns begin with [^]). *)

Module Regex.
Import JsString.

Inductive regex : Type :=
| Eps                             (* the empty pattern *)
| Chr (c : ascii)                 (* a literal, compared under the [i] flag *)
| Cls (p : ascii -> bool)         (* a character class *)
| Seq (r1 r2 : regex)
| Alt (r1 r2 : regex)             (* [r1|r2], left first *)
| Opt (r : regex)                 (* [(?:r)?], greedy *)
| Plus (p : ascii -> bool)        (* [p+], greedy *)
| PlusLazy (p : ascii -> bool)    (* [p+?] *)
| Grp (n : nat) (r : regex)       (* the capture group number [n] *)
| Eos.                            (* [$] *)

(** Captured groups, most recent first. *)
Definition captures : Type := list (nat * string).

Fixpoint group (n : nat) (m : captures) : option string :=
  match m with
  | [] => None
  | (i, s) :: m' => if Nat.eqb i n then Some s else group n m'
  end.

(** The part of [s] that was consumed to reach its suffix [rest]. *)
Definition consumed (s rest : string) : string :=
  substring 0 (String.length s - String.length rest) s.

Definition or_else {A : Type} (a b : option A) : option A :=
  match a with
  | Some x => Some x
  | None => b
  end.

Fixpoint plus_greedy {A : Type} (p : ascii -> bool) (s : string)
    (k : string -> option A) : option A :=
  match s with
  | EmptyString => None
  | String c s' =>
      if p c then or_else (plus_greedy p s' k) (k s') else None
  end.

Fixpoint plus_lazy {A : Type} (p : ascii -> bool) (s : string)
    (k : string -> option A) : option A :=
  match s with
  | EmptyString => None
  | String c s' =>
      if p c then or_else (k s') (plus_lazy p s' k) else None
  end.

Definition same_letter (c d : ascii) : bool :=
  Ascii.eqb (upper_char c) (upper_char d).

Fixpoint run (r : regex) (s : string) (m : captures)
    (k : string -> captures -> option captures) {struct r} : option captures :=
  match r with
  | Eps => k s m
  | Chr c =>
      match s with
      | String d s' => if same_letter c d then k s' m else None
      | EmptyString => None
      end
  | Cls p =>
      match s with
      | String d s' => if p d then k s' m else None
      | EmptyString => None
      end
  | Seq r1 r2 => run r1 s m (fun s' m' => run r2 s' m' k)
  | Alt r1 r2 => or_else (run r1 s m k) (run r2 s m k)
  | Opt r1 => or_else (run r1 s m k) (k s m)
  | Plus p => plus_greedy p s (fun s' => k s' m)
  | PlusLazy p => plus_lazy p s (fun s' => k s' m)
  | Grp n r1 => run r1 s m (fun s' m' => k s' ((n, consumed s s') :: m'))
  | Eos =>
      match s with
      | EmptyString => k s m
      | String _ _ => None
      end
  end.

(** [s.match(r)] for a pattern that starts with [^]. *)
Definition exec (r : regex) (s : string) : option captures :=
  run r s [] (fun _ m => Some m).

(** A literal word, and an alternation of literal words in the order
    written. *)
Fixpoint word (w : string) : regex :=
  match w with
  | EmptyString => Eps
  | String c EmptyString => Chr c
  | String c w' => Seq (Chr c) (word w')
  end.

Fixpoint one_of (ws : list string) : regex :=
  match ws with
  | [] => Cls (fun _ => false)
  | [w] => word w
  | w :: ws' => Alt (word w) (one_of ws')
  end.

Fixpoint seq (rs : list regex) : regex :=
  match rs with
  | [] => Eps
  | [r] => r
  | r :: rs' => Seq r (seq rs')
  end.

End Regex.

(** ** The address based assigner ([lib/block-detector-v2.js]) *)

Module Address.
Import JsString Regex.

(** [normalizeStreetName]: lower case, trim, white space runs to one
    underscore, everything outside [[a-z0-9_]] removed.  A falsy name
    ([undefined], [null], the empty string) gives the empty string. *)
Definition normalizeStreetName (name : jsval) : string :=
  match name with
  | JString s =>
      if (s =? "")%string then ""
      else strip_special (replace_spaces (trim (toLowerCase s)))
  | _ => ""
  end.

Record ParsedAddress : Type := {
  houseNumber : Z;
  directional : option string;
  streetName : string;
  streetType : option string;
  fullStreet : string
}.

Definition directions : list string :=
  ["N"; "S"; "E"; "W"; "NORTH"; "SOUTH"; "EAST"; "WEST"].

Definition streetTypes : list string :=
  ["ST"; "STREET"; "AVE"; "AVENUE"; "RD"; "ROAD"; "BLVD"; "BOULEVARD";
   "DR"; "DRIVE"; "LN"; "LANE"; "CT"; "COURT"; "PL"; "PLACE"; "WAY";
   "PKWY"; "PARKWAY"; "HWY"; "HIGHWAY"; "CIR"; "CIRCLE"; "TER"; "TERRACE"].

(** [/^(\d+)(?:-\d+)?\s+(?:(N|S|E|W|NORTH|SOUTH|EAST|WEST)\s+)?(.+?)\s+(ST|STREET|...|TER|TERRACE)\.?$/i] *)
Definition addressRegex : regex :=
  seq [ Grp 1 (Plus is_digit);
        Opt (Seq (Chr "-") (Plus is_digit));
        Plus is_space;
        Opt (Seq (Grp 2 (one_of directions)) (Plus is_space));
        Grp 3 (PlusLazy is_dot);
        Plus is_space;
        Grp 4 (one_of streetTypes);
        Opt (Chr ".");
        Eos ].

(** [/^(\d+)\s+(.+)$/] *)
Definition numberedStreetRegex : regex :=
  seq [ Grp 1 (Plus is_digit); Plus is_space; Grp 2 (Plus is_dot); Eos ].

Definition group_or_empty (n : nat) (m : captures) : string :=
  match group n m with
  | Some s => s
  | None => ""
  end.

Definition parseAddress (address : jsval) : option ParsedAddress :=
  match address with
  | JString a =>
      if (a =? "")%string then None
      else
        let cleaned := toUpperCase (trim a) in
        match exec addressRegex cleaned with
        | None =>
            (* the simpler pattern for numbered streets *)
            match exec numberedStreetRegex cleaned with
            | Some simpleMatch =>
                Some {| houseNumber := parseInt (group_or_empty 1 simpleMatch);
                        streetName :=
                          normalizeStreetName (JString (group_or_empty 2 simpleMatch));
                        fullStreet := group_or_empty 2 simpleMatch;
                        directional := None;
                        streetType := None |}
            | None => None
            end
        | Some m =>
            let houseNumber' := group_or_empty 1 m in
            let directional' := group 2 m in
            let streetName' := group_or_empty 3 m in
            let streetType' := group_or_empty 4 m in
            Some {| houseNumber := parseInt houseNumber';
                    directional :=
                      match directional' with
                      | Some d => Some (first_char d)
                      | None => None
                      end;
                    streetName :=
                      normalizeStreetName
                        (JString (group_or_empty 2 m ++ " " ++ streetName'));
                    streetType := Some streetType';
                    fullStreet :=
                      match directional' with
                      | Some d => d ++ " "
                      | None => ""
                      end ++ streetName' ++ " " ++ streetType' |}
        end
  | _ => None
  end.

(** A number that may be infinite or undefined: the statistics start at
    [Infinity] and [-Infinity], and a block size of [0] gives [NaN]. *)
Inductive num : Type :=
| Fin (z : Z)
| PosInf
| NegInf
| NaN.

Definition num_to_string (x : num) : string :=
  match x with
  | Fin z => of_Z z
  | PosInf => "Infinity"
  | NegInf => "-Infinity"
  | NaN => "NaN"
  end.

(** [Math.min] and [Math.max] *)
Definition num_min (a b : num) : num :=
  match a, b with
  | NaN, _ | _, NaN => NaN
  | NegInf, _ | _, NegInf => NegInf
  | PosInf, y => y
  | x, PosInf => x
  | Fin x, Fin y => Fin (Z.min x y)
  end.

Definition num_max (a b : num) : num :=
  match a, b with
  | NaN, _ | _, NaN => NaN
  | PosInf, _ | _, PosInf => PosInf
  | NegInf, y => y
  | x, NegInf => x
  | Fin x, Fin y => Fin (Z.max x y)
  end.

(** [a - b] *)
Definition num_sub (a b : num) : num :=
  match a, b with
  | NaN, _ | _, NaN => NaN
  | Fin x, Fin y => Fin (x - y)
  | PosInf, PosInf | NegInf, NegInf => NaN
  | PosInf, _ | _, NegInf => PosInf
  | NegInf, _ | _, PosInf => NegInf
  end.

(** [blockStart = Math.floor(n / blockSize) * blockSize] and
    [blockEnd = blockStart + blockSize - 1], for [n <> 0]: a block size of
    [0] makes the quotient infinite and both bounds [NaN]. *)
Definition blockBounds (n blockSize : Z) : num * num :=
  if blockSize =? 0 then (NaN, NaN)
  else
    let blockStart := n / blockSize * blockSize in
    let blockEnd := blockStart + blockSize - 1 in
    (Fin blockStart, Fin blockEnd).

(** [`${streetName}_${blockStart}_${blockEnd}`] *)
Definition blockLabel (street : string) (bounds : num * num) : string :=
  street ++ "_" ++ num_to_string (fst bounds) ++ "_" ++ num_to_string (snd bounds).

Definition defaultBlockSize : Z := 100.
Definition defaultGapThreshold : Z := 50.

(** [generateBlockIdFromAddress]: [null] for a missing address and for a
    falsy house number, that is for [0]. *)
Definition generateBlockIdFromAddress (parsedAddress : option ParsedAddress)
    (blockSize : Z) : option string :=
  match parsedAddress with
  | None => None
  | Some p =>
      if houseNumber p =? 0 then None
      else Some (blockLabel (streetName p) (blockBounds (houseNumber p) blockSize))
  end.

(** A parcel record, and a parcel together with its parsed address
    ([{...parcel, parsed}]). *)
Record Parcel : Type := {
  parcel_id : string;
  address : jsval
}.

Record ParsedParcel : Type := {
  parcel : Parcel;
  parsed : ParsedAddress
}.

Definition number_of (a : ParsedParcel) : Z := houseNumber (parsed a).

Record Boundary : Type := {
  start : Z;
  end_ : Z;
  addresses : list ParsedParcel
}.

(** [.map(addr => ({...addr, parsed: parseAddress(addr.address)}))
     .filter(addr => addr.parsed && addr.parsed.houseNumber)] *)
Fixpoint parse_and_filter (l : list Parcel) : list ParsedParcel :=
  match l with
  | [] => []
  | addr :: l' =>
      match parseAddress (address addr) with
      | Some p =>
          if houseNumber p =? 0 then parse_and_filter l'
          else {| parcel := addr; parsed := p |} :: parse_and_filter l'
      | None => parse_and_filter l'
      end
  end.

(** [.sort((a, b) => a.parsed.houseNumber - b.parsed.houseNumber)]: the
    sort is stable. *)
Fixpoint insert_sorted (x : ParsedParcel) (l : list ParsedParcel) : list ParsedParcel :=
  match l with
  | [] => [x]
  | y :: l' =>
      if number_of x <=? number_of y then x :: l else y :: insert_sorted x l'
  end.

Definition sort_by_number (l : list ParsedParcel) : list ParsedParcel :=
  fold_right insert_sorted [] l.

(** The loop of [detectBlockBoundaries] from index [1] on: [prevNumber] is
    the house number of the element before [rest]. *)
Fixpoint walk (gapThreshold : Z) (boundaries : list Boundary)
    (currentBlock : Boundary) (prevNumber : Z) (rest : list ParsedParcel)
    : list Boundary :=
  match rest with
  | [] => push boundaries currentBlock
  | x :: rest' =>
      let currNumber := number_of x in
      let gap := currNumber - prevNumber in
      if gap >? gapThreshold
      then
        walk gapThreshold
          (push boundaries
             {| start := start currentBlock;
                end_ := prevNumber;
                addresses := addresses currentBlock |})
          {| start := currNumber; end_ := currNumber; addresses := [x] |}
          currNumber rest'
      else
        walk gapThreshold boundaries
          {| start := start currentBlock;
             end_ := currNumber;
             addresses := push (addresses currentBlock) x |}
          currNumber rest'
  end.

Definition detectBlockBoundaries (addresses : list Parcel) (gapThreshold : Z)
    : list Boundary :=
  match sort_by_number (parse_and_filter addresses) with
  | [] => []
  | first :: rest =>
      walk gapThreshold []
        {| start := number_of first; end_ := number_of first; addresses := [first] |}
        (number_of first) rest
  end.

Definition key_eqb (a b : option string) : bool :=
  match a, b with
  | Some x, Some y => (x =? y)%string
  | None, None => true
  | _, _ => false
  end.

(** *** assignBlockIds *)

Record Options : Type := {
  blockSize : option Z;
  useNaturalBoundaries : option bool;
  gapThreshold : option Z
}.

(** [options = {}] *)
Definition noOptions : Options :=
  {| blockSize := None; useNaturalBoundaries := None; gapThreshold := None |}.

Definition or_default {A : Type} (o : option A) (d : A) : A :=
  match o with
  | Some x => x
  | None => d
  end.

(** An element of [results]: the parcel, its parsed address where there is
    one, and the fields the assigner adds. *)
Record Result : Type := {
  result_parcel : Parcel;
  result_parsed : option ParsedAddress;
  block_id : option string;
  parse_error : bool;
  block_method : option string
}.

Record BlockStats : Type := {
  count : Z;
  minNumber : num;
  maxNumber : num;
  statsStreetName : string
}.

Abbreviation StreetGroups := (list (string * list ParsedParcel)).
Abbreviation StatsMap := (list (option string * BlockStats)).

(** The body of the first loop: a parse error goes to [results], a parsed
    parcel to the group of its street. *)
Definition group_parcel (st : list Result * StreetGroups) (p : Parcel)
    : list Result * StreetGroups :=
  let '(results, streetGroups) := st in
  match parseAddress (address p) with
  | None =>
      (push results
         {| result_parcel := p; result_parsed := None;
            block_id := None; parse_error := true;
            block_method := None |},
       streetGroups)
  | Some parsed0 =>
      let streetKey := streetName parsed0 in
      let streetGroups1 :=
        if map_has String.eqb streetKey streetGroups then streetGroups
        else map_set String.eqb streetKey [] streetGroups in
      (results,
       map_set String.eqb streetKey
         (push (or_default (map_get String.eqb streetKey streetGroups1) [])
            {| parcel := p; parsed := parsed0 |})
         streetGroups1)
  end.

(** The statistics update that follows every push of an assigned parcel. *)
Definition update_stats (blockId : option string) (a : ParsedAddress)
    (blockStats : StatsMap) : StatsMap :=
  let blockStats1 :=
    if map_has key_eqb blockId blockStats then blockStats
    else map_set key_eqb blockId
           {| count := 0; minNumber := PosInf; maxNumber := NegInf;
              statsStreetName := fullStreet a |} blockStats in
  match map_get key_eqb blockId blockStats1 with
  | Some stats =>
      map_set key_eqb blockId
        {| count := count stats + 1;
           minNumber := num_min (minNumber stats) (Fin (houseNumber a));
           maxNumber := num_max (maxNumber stats) (Fin (houseNumber a));
           statsStreetName := statsStreetName stats |} blockStats1
  | None => blockStats1
  end.

Definition assign_natural (blockId : string)
    (st : list Result * StatsMap) (addr : ParsedParcel) : list Result * StatsMap :=
  let '(results, blockStats) := st in
  (push results
     {| result_parcel := parcel addr;
        result_parsed := Some (parsed addr);
        block_id := Some blockId; parse_error := false;
        block_method := Some "natural_boundary" |},
   update_stats (Some blockId) (parsed addr) blockStats).

Definition assign_boundary (street : string) (blockSize0 : Z)
    (st : list Result * StatsMap) (boundary : Boundary) : list Result * StatsMap :=
  let blockId := blockLabel street (blockBounds (start boundary) blockSize0) in
  fold_left (assign_natural blockId) (addresses boundary) st.

Definition assign_fixed (blockSize0 : Z)
    (st : list Result * StatsMap) (p : ParsedParcel) : list Result * StatsMap :=
  let '(results, blockStats) := st in
  let blockId := generateBlockIdFromAddress (Some (parsed p)) blockSize0 in
  (push results
     {| result_parcel := parcel p;
        result_parsed := Some (parsed p);
        block_id := blockId; parse_error := false;
        block_method := Some "fixed_size" |},
   update_stats blockId (parsed p) blockStats).

(** The body of the second loop, for one street. *)
Definition process_street (blockSize0 : Z) (natural : bool) (gapThreshold0 : Z)
    (st : list Result * StatsMap) (entry : string * list ParsedParcel)
    : list Result * StatsMap :=
  let '(street, streetParcels) := entry in
  if natural
  then
    let boundaries := detectBlockBoundaries (map parcel streetParcels) gapThreshold0 in
    fold_left (assign_boundary street blockSize0) boundaries st
  else fold_left (assign_fixed blockSize0) streetParcels st.

Record Summary : Type := {
  totalParcels : nat;
  successfullyAssigned : nat;
  parseErrors : nat;
  uniqueBlocks : nat;
  uniqueStreets : nat
}.

Record Assignment : Type := {
  parcels : list Result;
  blockStats : list (string * BlockStats);
  summary : Summary
}.

(** The truthiness of [r.block_id]: neither [null] nor the empty string. *)
Definition has_block_id (r : Result) : bool :=
  match block_id r with
  | Some s => negb (s =? "")%string
  | None => false
  end.

(** [Object.fromEntries]: the keys become property names, [null] the name
    ["null"].  A block identifier holds an underscore, so no property
    name is an array index, and the properties keep the order of insertion,
    which is also the order of [Object.entries]. *)
Definition property_name (k : option string) : string :=
  match k with
  | Some s => s
  | None => "null"
  end.

Definition fromEntries (m : StatsMap) : list (string * BlockStats) :=
  fold_left (fun o e => map_set String.eqb (property_name (fst e)) (snd e) o) m [].

Definition assignBlockIds (input : list Parcel) (options : Options) : Assignment :=
  let blockSize0 := or_default (blockSize options) defaultBlockSize in
  let natural := or_default (useNaturalBoundaries options) false in
  let gapThreshold0 := or_default (gapThreshold options) defaultGapThreshold in
  let '(errors, streetGroups) := fold_left group_parcel input ([], []) in
  let '(results, stats) :=
    fold_left (process_street blockSize0 natural gapThreshold0) streetGroups
      (errors, []) in
  {| parcels := results;
     blockStats := fromEntries stats;
     summary :=
       {| totalParcels := List.length input;
          successfullyAssigned := List.length (filter has_block_id results);
          parseErrors := List.length (filter parse_error results);
          uniqueBlocks := List.length stats;
          uniqueStreets := List.length streetGroups |} |}.

(** *** validateBlockAssignments *)

Record Issue : Type := {
  type : string;
  blockId : string;
  message : string;
  severity : string
}.

Record Validation : Type := {
  valid : bool;
  issues : list Issue
}.

(** [Math.floor(numberRange / 2) + 1] *)
Definition expectedCount (numberRange : num) : num :=
  match numberRange with
  | Fin r => Fin (r / 2 + 1)
  | other => other
  end.

(** [count < expected * 0.3].  For integers the comparison with the double
    [expected * 0.3] is the comparison of [10 * count] with
    [3 * expected]. *)
Definition below_30_percent (n : Z) (expected : num) : bool :=
  match expected with
  | Fin e => 10 * n <? 3 * e
  | PosInf => true
  | NegInf | NaN => false
  end.

Definition sparse_issue (id : string) (stats : BlockStats) : Issue :=
  {| type := "sparse_block";
     blockId := id;
     message := "Block " ++ id ++ " has only " ++ of_Z (count stats)
                  ++ " parcels but spans "
                  ++ num_to_string (num_sub (maxNumber stats) (minNumber stats))
                  ++ " numbers";
     severity := "warning" |}.

Definition small_issue (id : string) (stats : BlockStats) : Issue :=
  {| type := "small_block";
     blockId := id;
     message := "Block " ++ id ++ " has only " ++ of_Z (count stats) ++ " parcels";
     severity := "info" |}.

(** The body of the loop over [Object.entries(blockStats)]. *)
Definition check_block (issues0 : list Issue) (entry : string * BlockStats)
    : list Issue :=
  let '(id, stats) := entry in
  let numberRange := num_sub (maxNumber stats) (minNumber stats) in
  let issues1 :=
    if below_30_percent (count stats) (expectedCount numberRange)
    then push issues0 (sparse_issue id stats) else issues0 in
  if count stats <? 3 then push issues1 (small_issue id stats) else issues1.

Definition validate_stats (stats : list (string * BlockStats)) : Validation :=
  let issues0 := fold_left check_block stats [] in
  {| valid :=
       Nat.eqb
         (List.length (filter (fun i => (severity i =? "error")%string) issues0)) 0;
     issues := issues0 |}.

Definition validateBlockAssignments (assignments : Assignment) : Validation :=
  validate_stats (blockStats assignments).

End Address.

(** ** The geometric detector ([lib/block-detector.js]) *)

Module Geometric.
Import JsString.

(** [normalizeStreetName], the copy of this file. *)
Definition normalizeStreetName (name : jsval) : string :=
  match name with
  | JString s =>
      if (s =? "")%string then ""
      else strip_special (replace_spaces (trim (toLowerCase s)))
  | _ => ""
  end.

(** [parts.join('_')] *)
Fixpoint join_underscore (parts : list string) : string :=
  match parts with
  | [] => ""
  | [x] => x
  | x :: rest => x ++ "_" ++ join_underscore rest
  end.

Definition generateBlockId (streetName fromCross toCross : jsval) : string :=
  let normalized :=
    filter (fun n => negb (String.length n =? 0)%nat)
      (map normalizeStreetName [streetName; fromCross; toCross]) in
  join_underscore normalized.

Record Street (Line : Type) : Type := {
  street_name : jsval;
  street_geometry : Line
}.
Arguments street_name {Line}.
Arguments street_geometry {Line}.

Record Intersection (Point : Type) : Type := {
  point : Point;
  crossStreet : jsval;
  crossStreetId : jsval
}.
Arguments point {Point}.
Arguments crossStreet {Point}.
Arguments crossStreetId {Point}.

Record Segment (Line BBox Point : Type) : Type := {
  blockId : string;
  streetName : jsval;
  fromCrossStreet : jsval;
  toCrossStreet : jsval;
  geometry : Line;
  bounds : BBox;
  center : option Point
}.
Arguments blockId {Line BBox Point}.
Arguments streetName {Line BBox Point}.
Arguments fromCrossStreet {Line BBox Point}.
Arguments toCrossStreet {Line BBox Point}.
Arguments geometry {Line BBox Point}.
Arguments bounds {Line BBox Point}.
Arguments center {Line BBox Point}.

(** The operations of the geometry library the detector calls.  An
    operation that the code guards with [try] may throw: it returns
    [None] then.  Distances are in kilometres. *)
Class Turf : Type := {
  Position : Type;
  Point : Type;
  Line : Type;
  BBox : Type;
  Polygon : Type;
  ParcelFeature : Type;
  coordinates : Line -> list Position;
  turf_point : Position -> Point;
  turf_distance : Point -> Point -> Q;
  turf_lineSlice : Point -> Point -> Street Line -> option Line;
  turf_bbox : Line -> option BBox;
  turf_center : Line -> option Point;
  turf_buffer : Segment Line BBox Point -> Z -> option Polygon;
  turf_centroid : ParcelFeature -> option Point;
  turf_booleanPointInPolygon : Point -> Polygon -> option bool
}.

Section Detector.
Context {T : Turf}.

Definition Block : Type := Segment Line BBox Point.

(** The body of a [try] that slices the street between two points and
    builds the segment; [None] when an operation throws. *)
Definition slice_segment (street : Street Line) (fromName : jsval) (fromPoint : Point)
    (toName : jsval) (toPoint : Point) : option Block :=
  match turf_lineSlice fromPoint toPoint street with
  | None => None
  | Some segment =>
      let blockId0 := generateBlockId (street_name street) fromName toName in
      match turf_bbox segment with
      | None => None
      | Some box =>
          match turf_center segment with
          | None => None
          | Some c =>
              Some {| blockId := blockId0;
                      streetName := street_name street;
                      fromCrossStreet := fromName;
                      toCrossStreet := toName;
                      geometry := segment;
                      bounds := box;
                      center := Some c |}
          end
      end
  end.

(** [try { segments.push(...) } catch { logger.warn(...) }] *)
Definition push_if_built (segments : list Block) (b : option Block) : list Block :=
  match b with
  | Some seg => push segments seg
  | None => segments
  end.

(** The loop over the consecutive pairs of intersections. *)
Fixpoint segments_between (street : Street Line)
    (sortedIntersections : list (Intersection Point)) (segments : list Block)
    : list Block :=
  match sortedIntersections with
  | fromIntersection :: (toIntersection :: _) as rest =>
      segments_between street rest
        (push_if_built segments
           (slice_segment street
              (crossStreet fromIntersection) (point fromIntersection)
              (crossStreet toIntersection) (point toIntersection)))
  | _ => segments
  end.

(** [d > 0.01] *)
Definition farther_than_10m (d : Q) : bool := negb (Qle_bool d (1 # 100)).

(** [createBlockSegments]; [None] stands for an exception that leaves the
    function: [turf.bbox] on the street, or [turf.point] on a line
    without coordinates. *)
Definition createBlockSegments (street : Street Line)
    (sortedIntersections : list (Intersection Point)) : option (list Block) :=
  match sortedIntersections with
  | [] =>
      match turf_bbox (street_geometry street) with
      | None => None
      | Some box =>
          Some [{| blockId :=
                     generateBlockId (street_name street)
                       (JString "start") (JString "end");
                   streetName := street_name street;
                   fromCrossStreet := JString "start";
                   toCrossStreet := JString "end";
                   geometry := street_geometry street;
                   bounds := box;
                   center := None |}]
      end
  | firstIntersection :: _ =>
      let segments := segments_between street sortedIntersections [] in
      match hd_error (coordinates (street_geometry street)) with
      | None => None
      | Some c0 =>
          let startPoint := turf_point c0 in
          let segments1 :=
            if farther_than_10m (turf_distance startPoint (point firstIntersection))
            then
              match slice_segment street (JString "start") startPoint
                      (crossStreet firstIntersection) (point firstIntersection) with
              | Some seg => seg :: segments      (* [segments.unshift] *)
              | None => segments
              end
            else segments in
          let lastIntersection := last sortedIntersections firstIntersection in
          match hd_error (rev (coordinates (street_geometry street))) with
          | None => None
          | Some cn =>
              let endPoint := turf_point cn in
              Some
                (if farther_than_10m (turf_distance (point lastIntersection) endPoint)
                 then
                   push_if_built segments1
                     (slice_segment street
                        (crossStreet lastIntersection) (point lastIntersection)
                        (JString "end") endPoint)
                 else segments1)
          end
      end
  end.








End Detector.

End Geometric.

(** ** The sales import ([scripts/process-sales-data.js]) *)

Module SalesImport.
Import JsString Address.











(** *** The statistics of the blocks over the chunks of the sales file *)

(** An entry of the map [blockStats] of [processSalesData]; the array
    [sales] is made empty and never filled. *)
Record BlockTotals : Type := {
  totalCount : Z;
  totalMin : num;
  totalMax : num;
  totalStreet : string;
  sales : list Parcel
}.

(** The body of the loop over [Object.entries(chunkBlockStats)]. *)
Definition merge_entry (blockStats : list (string * BlockTotals))
    (entry : string * BlockStats) : list (string * BlockTotals) :=
  let '(blockId, stats) := entry in
  let blockStats1 :=
    if map_has String.eqb blockId blockStats then blockStats
    else map_set String.eqb blockId
           {| totalCount := 0; totalMin := PosInf; totalMax := NegInf;
              totalStreet := statsStreetName stats; sales := [] |} blockStats in
  match map_get String.eqb blockId blockStats1 with
  | Some blockStat =>
      map_set String.eqb blockId
        {| totalCount := totalCount blockStat + count stats;
           totalMin := num_min (totalMin blockStat) (minNumber stats);
           totalMax := num_max (totalMax blockStat) (maxNumber stats);
           totalStreet := totalStreet blockStat;
           sales := sales blockStat |} blockStats1
  | None => blockStats1
  end.

(** One chunk: the parcels of the chunk are assigned with the default
    options, and the statistics of the chunk are added to the map. *)
Definition process_chunk (blockStats : list (string * BlockTotals))
    (parcelsInChunk : list Parcel) : list (string * BlockTotals) :=
  fold_left merge_entry
    (Address.blockStats (assignBlockIds parcelsInChunk noOptions)) blockStats.

Definition process_chunks (chunks : list (list Parcel)) : list (string * BlockTotals) :=
  fold_left process_chunk chunks [].

(** [assignBlockIds([p]).parcels[0]?.block_id === blockId], the filter that
    picks the parcels of a block when the block is saved. *)
Definition filed_under (blockId : string) (p : Parcel) : bool :=
  match nth_error (parcels (assignBlockIds [p] noOptions)) 0 with
  | Some r =>
      match block_id r with
      | Some id => String.eqb id blockId
      | None => false
      end
  | None => false
  end.

End SalesImport.

(** ** Detection of the blocks of many streets ([lib/block-detector.js]) *)

Module Detection.
Import Geometric.

(** A street feature with its identifier. *)
Record StreetFeature (Line : Type) : Type := {
  feature : Street Line;
  street_id : jsval
}.
Arguments feature {Line}.
Arguments street_id {Line}.

(** The properties of the point that [turf.nearestPointOnLine] returns; a
    property that is [undefined] or [NaN] is [None]. *)
Record Nearest : Type := {
  dist : option Q;
  location : option Q
}.

(** The further operations of the geometry library.  [turf_lineIntersect]
    gives the points of the feature collection, [None] when it throws. *)
Class TurfLines (T : Turf) : Type := {
  turf_lineIntersect : Street Line -> Street Line -> option (list Point);
  turf_nearestPointOnLine : Line -> Point -> option Nearest
}.

(** An intersection with its place along the street. *)
Record Located (Point : Type) : Type := {
  intersection : Intersection Point;
  distance : Q;
  along : Q
}.
Arguments intersection {Point}.
Arguments distance {Point}.
Arguments along {Point}.

Section Detect.
Context {T : Turf} {TL : TurfLines T}.

(** The body of the loop of [findIntersections]: the first intersection
    point, if there is one; an exception is caught and logged. *)
Definition find_intersection (mainStreet : Street Line)
    (intersections : list (Intersection Point)) (crossStreet : StreetFeature Line)
    : list (Intersection Point) :=
  match turf_lineIntersect mainStreet (feature crossStreet) with
  | Some (pt :: _) =>
      push intersections
        {| point := pt;
           crossStreet := street_name (feature crossStreet);
           crossStreetId := street_id crossStreet |}
  | Some [] => intersections
  | None => intersections
  end.

Definition findIntersections (mainStreet : Street Line)
    (crossStreets : list (StreetFeature Line)) : list (Intersection Point) :=
  fold_left (find_intersection mainStreet) crossStreets [].

(** [x || 0] *)
Definition or_zero (x : option Q) : Q :=
  match x with
  | Some q => q
  | None => 0%Q
  end.

(** [intersections.map(...)]; [None] when [turf.nearestPointOnLine]
    throws. *)
Fixpoint locate_all (line : Line) (intersections : list (Intersection Point))
    : option (list (Located Point)) :=
  match intersections with
  | [] => Some []
  | i :: rest =>
      match turf_nearestPointOnLine line (point i) with
      | None => None
      | Some pointOnLine =>
          match locate_all line rest with
          | None => None
          | Some located =>
              Some ({| intersection := i;
                       distance := or_zero (dist pointOnLine);
                       along := or_zero (location pointOnLine) |} :: located)
          end
      end
  end.

(** [.sort((a, b) => a.location - b.location)]: the sort is stable. *)
Fixpoint insert_located (x : Located Point) (l : list (Located Point))
    : list (Located Point) :=
  match l with
  | [] => [x]
  | y :: l' =>
      if Qle_bool (along x) (along y) then x :: l else y :: insert_located x l'
  end.

Definition sort_located (l : list (Located Point)) : list (Located Point) :=
  fold_right insert_located [] l.

Definition sortIntersectionsAlongStreet (street : Street Line)
    (intersections : list (Intersection Point)) : option (list (Located Point)) :=
  match intersections with
  | [] => Some []
  | _ =>
      match locate_all (street_geometry street) intersections with
      | None => None
      | Some located => Some (sort_located located)
      end
  end.




End Detect.

End Detection.

(** ** Block analytics ([scripts/process-block-analytics.js])

    The values of a parcel (prices, areas, percentages) are rational
    numbers; where the code adds or divides them the model is exact.  A
    property that is [undefined] or [null] is [None]. *)

Module Analytics.
Import JsString.

(** [values.sort((a, b) => a - b)] on a copy: the sort is stable. *)
Fixpoint insert_value (x : Q) (l : list Q) : list Q :=
  match l with
  | [] => [x]
  | y :: l' => if Qle_bool x y then x :: l else y :: insert_value x l'
  end.

Definition sort_values (l : list Q) : list Q := fold_right insert_value [] l.

Definition median (values : list Q) : Q :=
  match values with
  | [] => 0%Q
  | _ =>
      let sorted := sort_values values in
      let mid := (List.length sorted / 2)%nat in
      if Nat.odd (List.length sorted) then nth mid sorted 0%Q
      else ((nth (mid - 1) sorted 0%Q + nth mid sorted 0%Q) / 2)%Q
  end.

(** [values.reduce((a, b) => a + b, 0)] *)
Definition sum (values : list Q) : Q := fold_left Qplus values 0%Q.

Definition average (values : list Q) : Q :=
  (sum values / inject_Z (Z.of_nat (List.length values)))%Q.

Record Properties : Type := {
  property_class : option string;
  use_code : option string;
  building_status : option string;
  sale_date : option string;
  amt_sale_price : option Q;
  tax_status : option string;
  tax_status_description : option string;
  taxpayer_1 : option string;
  pct_pre_claimed : option Q;
  amt_assessed_value : option Q;
  amt_taxable_value : option Q;
  total_square_footage : option Q;
  building_square_footage : option Q
}.

(** [s.startsWith(p)] *)
Fixpoint startsWith (p s : string) : bool :=
  match p, s with
  | EmptyString, _ => true
  | String a p', String b s' => (Ascii.eqb a b && startsWith p' s')%bool
  | String _ _, EmptyString => false
  end.

(** [s.includes(p)] *)
Fixpoint includes (p s : string) : bool :=
  (startsWith p s
   || match s with
      | EmptyString => false
      | String _ s' => includes p s'
      end)%bool.

(** [x?.startsWith(p)] as a condition: [undefined] is falsy. *)
Definition class_starts (p : string) (x : option string) : bool :=
  match x with
  | Some s => startsWith p s
  | None => false
  end.

(** [x === s] *)
Definition is_text (s : string) (x : option string) : bool :=
  match x with
  | Some t => String.eqb t s
  | None => false
  end.

(** The truthiness of a text property. *)
Definition truthy (x : option string) : bool :=
  match x with
  | Some t => negb (String.eqb t "")
  | None => false
  end.

(** [x > 0] *)
Definition positive_value (x : option Q) : bool :=
  match x with
  | Some q => negb (Qle_bool q 0)
  | None => false
  end.

Definition b2z (b : bool) : Z := if b then 1 else 0.

(** [values.push(x)] under the condition [x > 0]. *)
Definition push_positive (values : list Q) (x : option Q) : list Q :=
  match x with
  | Some q => if negb (Qle_bool q 0) then push values q else values
  | None => values
  end.

Inductive Ownership : Type :=
| OwnerOccupied
| CityOwned
| LandBankOwned
| InvestorOwned.

(** The chain of tests on the pre claim percentage and the tax payer. *)
Definition ownership (props : Properties) : Ownership :=
  let taxpayer :=
    toLowerCase (match taxpayer_1 props with
                 | Some t => if String.eqb t "" then "" else t
                 | None => ""
                 end) in
  if positive_value (pct_pre_claimed props) then OwnerOccupied
  else if includes "city of detroit" taxpayer then CityOwned
  else if includes "land bank" taxpayer then LandBankOwned
  else InvestorOwned.

Definition is_owner (k o : Ownership) : bool :=
  match k, o with
  | OwnerOccupied, OwnerOccupied | CityOwned, CityOwned
  | LandBankOwned, LandBankOwned | InvestorOwned, InvestorOwned => true
  | _, _ => false
  end.

(** A [Date]: [None] is an invalid date, [Some t] the time value [t]. *)
Definition Date : Type := option Z.

(** [a > b] on dates: false when one of them is invalid. *)
Definition date_after (a b : Date) : bool :=
  match a, b with
  | Some x, Some y => y <? x
  | _, _ => false
  end.

(** The state of the loop: the counters, the arrays and [lastSaleDate]
    ([None] while it is [null]). *)
Record Tally : Type := {
  residential_parcels : Z;
  commercial_parcels : Z;
  vacant_parcels : Z;
  total_buildings : Z;
  occupied_buildings : Z;
  vacant_buildings : Z;
  condemned_buildings : Z;
  recent_sales_count : Z;
  tax_delinquent_count : Z;
  owner_occupied_count : Z;
  investor_owned_count : Z;
  city_owned_count : Z;
  land_bank_owned_count : Z;
  assessedValues : list Q;
  taxableValues : list Q;
  lotSizes : list Q;
  buildingSizes : list Q;
  recentSalePrices : list Q;
  lastSaleDate : option Date
}.

Definition empty_tally : Tally :=
  {| residential_parcels := 0; commercial_parcels := 0; vacant_parcels := 0;
     total_buildings := 0; occupied_buildings := 0; vacant_buildings := 0;
     condemned_buildings := 0; recent_sales_count := 0; tax_delinquent_count := 0;
     owner_occupied_count := 0; investor_owned_count := 0; city_owned_count := 0;
     land_bank_owned_count := 0;
     assessedValues := []; taxableValues := []; lotSizes := [];
     buildingSizes := []; recentSalePrices := []; lastSaleDate := None |}.

Record BlockAnalytics : Type := {
  total_parcels : Z;
  tally : Tally;
  avg_assessed_value : option Q;
  median_assessed_value : option Q;
  total_assessed_value : option Q;
  avg_taxable_value : option Q;
  median_taxable_value : option Q;
  avg_lot_size_sqft : option Q;
  avg_building_size_sqft : option Q;
  recent_sales_avg_price : option Q;
  last_sale_date : option string;
  tax_delinquent_percentage : option Q
}.

Section Clock.
(** [new Date(text)], the time value of [twoYearsAgo], and
    [date.toISOString().split('T')[0]] for a valid date. *)
Variable parse_date : string -> Date.
Variable twoYearsAgo : Z.
Variable iso_day : Z -> string.

(** The body of the loop over the parcels. *)
Definition count_parcel (t : Tally) (props : Properties) : Tally :=
  let residential := class_starts "1" (property_class props) in
  let commercial := (negb residential && class_starts "2" (property_class props))%bool in
  let vacant :=
    (is_text "336" (property_class props) || is_text "VACANT" (use_code props)
     || is_text "Vacant" (building_status props))%bool in
  let building := truthy (building_status props) in
  let occupied := (building && is_text "Occupied" (building_status props))%bool in
  let vacant_building :=
    (building && negb occupied && is_text "Vacant" (building_status props))%bool in
  let condemned :=
    (building && negb occupied && negb vacant_building
     && is_text "Condemned" (building_status props))%bool in
  let sold := truthy (sale_date props) in
  let saleDate : Date :=
    match sale_date props with
    | Some text => parse_date text
    | None => None
    end in
  let recent := (sold && date_after saleDate (Some twoYearsAgo))%bool in
  let delinquent :=
    (is_text "Delinquent" (tax_status props)
     || is_text "Delinquent" (tax_status_description props))%bool in
  let owner := ownership props in
  {| residential_parcels := residential_parcels t + b2z residential;
     commercial_parcels := commercial_parcels t + b2z commercial;
     vacant_parcels := vacant_parcels t + b2z vacant;
     total_buildings := total_buildings t + b2z building;
     occupied_buildings := occupied_buildings t + b2z occupied;
     vacant_buildings := vacant_buildings t + b2z vacant_building;
     condemned_buildings := condemned_buildings t + b2z condemned;
     recent_sales_count := recent_sales_count t + b2z recent;
     tax_delinquent_count := tax_delinquent_count t + b2z delinquent;
     owner_occupied_count := owner_occupied_count t + b2z (is_owner OwnerOccupied owner);
     investor_owned_count := investor_owned_count t + b2z (is_owner InvestorOwned owner);
     city_owned_count := city_owned_count t + b2z (is_owner CityOwned owner);
     land_bank_owned_count :=
       land_bank_owned_count t + b2z (is_owner LandBankOwned owner);
     assessedValues := push_positive (assessedValues t) (amt_assessed_value props);
     taxableValues := push_positive (taxableValues t) (amt_taxable_value props);
     lotSizes := push_positive (lotSizes t) (total_square_footage props);
     buildingSizes := push_positive (buildingSizes t) (building_square_footage props);
     recentSalePrices :=
       if recent then push_positive (recentSalePrices t) (amt_sale_price props)
       else recentSalePrices t;
     lastSaleDate :=
       if sold
       then match lastSaleDate t with
            | None => Some saleDate
            | Some last => if date_after saleDate last then Some saleDate else Some last
            end
       else lastSaleDate t |}.

(** A statistic that is set only when there are values. *)
Definition when_values (values : list Q) (f : list Q -> Q) : option Q :=
  match values with
  | [] => None
  | _ => Some (f values)
  end.

(** [calculateBlockAnalytics]; [None] stands for the [RangeError] of
    [toISOString] on an invalid date. *)
Definition calculateBlockAnalytics (blockParcels : list Properties)
    : option BlockAnalytics :=
  let t := fold_left count_parcel blockParcels empty_tally in
  let total := Z.of_nat (List.length blockParcels) in
  let finish (day : option string) : BlockAnalytics :=
    {| total_parcels := total;
       tally := t;
       avg_assessed_value := when_values (assessedValues t) average;
       median_assessed_value := when_values (assessedValues t) median;
       total_assessed_value := when_values (assessedValues t) sum;
       avg_taxable_value := when_values (taxableValues t) average;
       median_taxable_value := when_values (taxableValues t) median;
       avg_lot_size_sqft := when_values (lotSizes t) average;
       avg_building_size_sqft := when_values (buildingSizes t) average;
       recent_sales_avg_price := when_values (recentSalePrices t) average;
       last_sale_date := day;
       tax_delinquent_percentage :=
         if 0 <? total
         then Some ((inject_Z (tax_delinquent_count t) / inject_Z total) * 100)%Q
         else None |} in
  match lastSaleDate t with
  | None => Some (finish None)
  | Some (Some time) => Some (finish (Some (iso_day time)))
  | Some None => None
  end.

End Clock.

End Analytics.

(** ** The client of the city's data service ([lib/detroit-api-client.js]) *)

Module ApiClient.
Import Address SalesImport.



(** What one call of [fetch] followed by [response.json()] comes to: the
    parsed body, or the error that is thrown (a failed request, a status
    that is not ok, a body that is no JSON). *)
Inductive Outcome (Json Error : Type) : Type :=
| Body (data : Json)
| Thrown (error : Error).
Arguments Body {Json Error}.
Arguments Thrown {Json Error}.

Section Retry.
Context {Json Error : Type}.

(** The service: the outcome of the request number [n], counted from [0]. *)
Variable service : nat -> Outcome Json Error.

(** [fetchWithRetry] on the request number [attempt] with [retries] retries
    left ([retries > 0] is [left > 0] for [left = Z.to_nat retries]); the
    result comes with the number of requests made so far. *)
Fixpoint retry_from (attempt : nat) (left : nat) : Outcome Json Error * nat :=
  match service attempt with
  | Body data => (Body data, S attempt)
  | Thrown error =>
      match left with
      | S left' => retry_from (S attempt) left'
      | O => (Thrown error, S attempt)
      end
  end.

Definition fetchWithRetry (retries : Z) : Outcome Json Error * nat :=
  retry_from 0 (Z.to_nat retries).

End Retry.

End ApiClient.

(** * Properties of the engine *)

Import JsString Regex Address.

(** ** Characters and strings *)

Lemma name_char_not_upper (c : ascii) : is_name_char c = true -> is_upper c = false.
Proof.
  destruct c as [[|] [|] [|] [|] [|] [|] [|] [|]]; vm_compute; congruence.
Qed.

Lemma name_char_not_space (c : ascii) : is_name_char c = true -> is_space c = false.
Proof.
  destruct c as [[|] [|] [|] [|] [|] [|] [|] [|]]; vm_compute; congruence.
Qed.

Lemma strip_special_clean (s : string) : all_chars is_name_char (strip_special s) = true.
Proof.
  induction s as [|c s IH]; simpl; [reflexivity|].
  destruct (is_name_char c) eqn:E; simpl; [rewrite E|]; assumption.
Qed.

Lemma clean_lower (s : string) :
  all_chars is_name_char s = true -> toLowerCase s = s.
Proof.
  unfold toLowerCase.
  induction s as [|c t IH]; simpl; [reflexivity|].
  intros H. apply andb_prop in H. destruct H as [Hc Ht].
  rewrite (IH Ht). unfold lower_char. rewrite (name_char_not_upper c Hc). reflexivity.
Qed.

Lemma clean_trimStart (s : string) :
  all_chars is_name_char s = true -> trimStart s = s.
Proof.
  destruct s as [|c t]; simpl; [reflexivity|].
  intros H. apply andb_prop in H. destruct H as [Hc _].
  rewrite (name_char_not_space c Hc). reflexivity.
Qed.

Lemma clean_trimEnd (s : string) :
  all_chars is_name_char s = true -> trimEnd s = s.
Proof.
  induction s as [|c t IH]; simpl; [reflexivity|].
  intros H. apply andb_prop in H. destruct H as [Hc Ht].
  rewrite (name_char_not_space c Hc), (IH Ht). reflexivity.
Qed.

Lemma clean_replace (s : string) (b : bool) :
  all_chars is_name_char s = true -> replace_spaces_from b s = s.
Proof.
  revert b. induction s as [|c t IH]; simpl; [reflexivity|].
  intros b H. apply andb_prop in H. destruct H as [Hc Ht].
  rewrite (name_char_not_space c Hc), (IH false Ht). reflexivity.
Qed.

Lemma clean_strip (s : string) :
  all_chars is_name_char s = true -> strip_special s = s.
Proof.
  induction s as [|c t IH]; simpl; [reflexivity|].
  intros H. apply andb_prop in H. destruct H as [Hc Ht].
  rewrite Hc, (IH Ht). reflexivity.
Qed.

(** A name that is already clean is left as it is. *)
Lemma clean_normalize (s : string) :
  all_chars is_name_char s = true -> normalizeStreetName (JString s) = s.
Proof.
  intros clean. unfold normalizeStreetName.
  destruct (s =? "")%string eqn:E.
  - apply String.eqb_eq in E. symmetry. exact E.
  - unfold trim, replace_spaces.
    rewrite (clean_lower s clean), (clean_trimStart s clean),
      (clean_trimEnd s clean), (clean_replace s false clean).
    apply clean_strip, clean.
Qed.

Lemma normalize_clean (name : jsval) :
  all_chars is_name_char (normalizeStreetName name) = true.
Proof.
  destruct name as [| |s]; try reflexivity.
  unfold normalizeStreetName.
  destruct (s =? "")%string; [reflexivity|apply strip_special_clean].
Qed.

(** C6.  Normalising a street name twice is normalising it once; the result
    has only characters of [[a-z0-9_]]; and the empty string, [null] and
    [undefined] give the empty string.  The copy of the function in the
    geometric detector is the same function. *)
Theorem normalizeStreetName_idempotent :
  (forall s : string,
      normalizeStreetName (JString (normalizeStreetName (JString s)))
      = normalizeStreetName (JString s))
  /\ (forall name : jsval, all_chars is_name_char (normalizeStreetName name) = true)
  /\ normalizeStreetName (JString "") = ""
  /\ normalizeStreetName JNull = ""
  /\ normalizeStreetName JUndefined = ""
  /\ (forall name : jsval,
        Geometric.normalizeStreetName name = normalizeStreetName name).
Proof.
  repeat split.
  - intros s. apply clean_normalize, normalize_clean.
  - apply normalize_clean.
Qed.

(** ** The fixed size assigner *)





(** ** The address parser *)

(** C3.  ["15000 7 Mile Rd"] is matched by the primary pattern, with the
    street words ["7 MILE"] and the street type ["RD"]: the simpler pattern
    for numbered streets is not reached, and the normalised street name is
    ["7_mile"], not ["7_mile_rd"]. *)
Theorem parseAddress_7_mile_rd :
  exec addressRegex (toUpperCase (trim "15000 7 Mile Rd")) <> None
  /\ parseAddress (JString "15000 7 Mile Rd")
     = Some {| houseNumber := 15000;
               directional := None;
               streetName := "7_mile";
               streetType := Some "RD";
               fullStreet := "7 MILE RD" |}
  /\ generateBlockIdFromAddress (parseAddress (JString "15000 7 Mile Rd"))
       defaultBlockSize
     = Some "7_mile_15000_15099".
Proof.
  repeat split; vm_compute; congruence.
Qed.

(** ** The batch assigner on particular inputs *)

(** C9.  In fixed size mode the parcel ["0 Main St"] is parsed, gets no block
    identifier and no parse error flag, is counted neither as assigned nor as
    a parse error, and the statistics acquire an entry under [null]. *)
Theorem assignBlockIds_zero_house_number :
  exists input : list Parcel,
    let a := assignBlockIds input noOptions in
    (exists p, map (fun x => parseAddress (address x)) input = [Some p]
               /\ houseNumber p = 0)
    /\ map block_id (parcels a) = [None]
    /\ map parse_error (parcels a) = [false]
    /\ map block_method (parcels a) = [Some "fixed_size"]
    /\ successfullyAssigned (summary a) = 0%nat
    /\ parseErrors (summary a) = 0%nat
    /\ totalParcels (summary a) = 1%nat
    /\ (successfullyAssigned (summary a) + parseErrors (summary a)
        < totalParcels (summary a))%nat
    /\ uniqueBlocks (summary a) = 1%nat
    /\ map fst (blockStats a) = ["null"].
Proof.
  exists [{| parcel_id := "001"; address := JString "0 Main St" |}].
  cbv zeta. split.
  - eexists. split; vm_compute; reflexivity.
  - repeat split; vm_compute; try reflexivity; lia.
Qed.

Lemma assign_boundary_ids (street : string) (size : Z) (b : Boundary)
    (m : StatsMap) :
  Forall (fun r => block_id r = Some (blockLabel street (blockBounds (start b) size)))
    (fst (assign_boundary street size ([], m) b)).
Proof.
  unfold assign_boundary.
  set (id := blockLabel street (blockBounds (start b) size)).
  assert (G : forall (l : list ParsedParcel) (st : list Result * StatsMap),
             Forall (fun r => block_id r = Some id) (fst st) ->
             Forall (fun r => block_id r = Some id)
               (fst (fold_left (assign_natural id) l st))).
  { induction l as [|x l IH]; intros [rs m'] H; simpl; [exact H|].
    apply IH. simpl. apply Forall_app. split; [exact H|].
    constructor; [reflexivity|constructor]. }
  apply G. constructor.
Qed.

(** C10.  With natural boundaries, a gap threshold of 50 and a block size of
    100, the parcels 1201 and 1260 of one street are in two boundary groups,
    and both groups get the identifier of the bin 1200 to 1299: the
    statistics hold one entry that counts both.  In general the members of
    two boundary groups of a street whose first house numbers are in the
    same bin all get one and the same identifier. *)
Theorem assignBlockIds_natural_groups_share_id :
  (exists (input : list Parcel) (options : Options),
      let a := assignBlockIds input options in
      useNaturalBoundaries options = Some true
      /\ gapThreshold options = Some 50
      /\ blockSize options = Some 100
      /\ map (fun b => (start b, end_ b,
                        map (fun x => parcel_id (parcel x)) (addresses b)))
           (detectBlockBoundaries input 50)
         = [(1201, 1201, ["001"]); (1260, 1260, ["002"])]
      /\ map (fun r => (parcel_id (result_parcel r), block_id r)) (parcels a)
         = [("001", Some "main_1200_1299"); ("002", Some "main_1200_1299")]
      /\ blockStats a
         = [("main_1200_1299",
             {| count := 2; minNumber := Fin 1201; maxNumber := Fin 1260;
                statsStreetName := "MAIN ST" |})]
      /\ uniqueBlocks (summary a) = 1%nat)
  /\ (forall (street : string) (size : Z) (b1 b2 : Boundary) (m1 m2 : StatsMap),
        start b1 / size = start b2 / size ->
        exists id,
          Forall (fun r => block_id r = Some id)
            (fst (assign_boundary street size ([], m1) b1))
          /\ Forall (fun r => block_id r = Some id)
               (fst (assign_boundary street size ([], m2) b2))).
Proof.
  split.
  - exists [{| parcel_id := "001"; address := JString "1201 Main St" |};
            {| parcel_id := "002"; address := JString "1260 Main St" |}].
    exists {| blockSize := Some 100; useNaturalBoundaries := Some true;
              gapThreshold := Some 50 |}.
    cbv zeta. repeat split; vm_compute; reflexivity.
  - intros street size b1 b2 m1 m2 Hbin.
    exists (blockLabel street (blockBounds (start b1) size)). split.
    + apply assign_boundary_ids.
    + replace (blockBounds (start b1) size) with (blockBounds (start b2) size)
        by (unfold blockBounds; rewrite Hbin; reflexivity).
      apply assign_boundary_ids.
Qed.

Definition main_1201 : ParsedParcel :=
  {| parcel := {| parcel_id := "001"; address := JString "1201 Main St" |};
     parsed := {| houseNumber := 1201; directional := None; streetName := "main";
                  streetType := Some "ST"; fullStreet := "MAIN ST" |} |}.

Definition main_1260 : ParsedParcel :=
  {| parcel := {| parcel_id := "002"; address := JString "1260 Main St" |};
     parsed := {| houseNumber := 1260; directional := None; streetName := "main";
                  streetType := Some "ST"; fullStreet := "MAIN ST" |} |}.

Lemma assignBlockIds_natural_groups_share_id_witness :
  exists id,
    Forall (fun r => block_id r = Some id)
      (fst (assign_boundary "main" 100 ([], [])
              {| start := 1201; end_ := 1201; addresses := [main_1201] |}))
    /\ Forall (fun r => block_id r = Some id)
         (fst (assign_boundary "main" 100 ([], [])
                 {| start := 1260; end_ := 1260; addresses := [main_1260] |})).
Proof.
  apply (proj2 assignBlockIds_natural_groups_share_id "main" 100
           {| start := 1201; end_ := 1201; addresses := [main_1201] |}
           {| start := 1260; end_ := 1260; addresses := [main_1260] |} [] []).
  reflexivity.
Defined.

(** ** Maps *)

Section MapFacts.
Context {K V : Type} (eqb : K -> K -> bool).
Hypothesis eqb_refl : forall k, eqb k k = true.

Lemma map_get_set_same (k : K) (v : V) (m : list (K * V)) :
  map_get eqb k (map_set eqb k v m) = Some v.
Proof.
  induction m as [|[k' v'] m IH]; simpl.
  - rewrite eqb_refl. reflexivity.
  - destruct (eqb k k') eqn:E; simpl.
    + rewrite eqb_refl. reflexivity.
    + rewrite E. exact IH.
Qed.

Lemma map_set_set_same (k : K) (v v' : V) (m : list (K * V)) :
  map_set eqb k v (map_set eqb k v' m) = map_set eqb k v m.
Proof.
  induction m as [|[k' w] m IH]; simpl.
  - rewrite eqb_refl. reflexivity.
  - destruct (eqb k k') eqn:E; simpl.
    + rewrite eqb_refl. reflexivity.
    + rewrite E, IH. reflexivity.
Qed.

Lemma map_set_values (Q : V -> Prop) (k : K) (v : V) (m : list (K * V)) :
  Forall (fun e => Q (snd e)) m -> Q v ->
  Forall (fun e => Q (snd e)) (map_set eqb k v m).
Proof.
  intros Hm Hv. induction m as [|[k' w] m IH]; simpl.
  - constructor; [exact Hv|constructor].
  - inversion Hm; subst. destruct (eqb k k').
    + constructor; assumption.
    + constructor; [assumption|apply IH; assumption].
Qed.

Lemma map_get_value (Q : V -> Prop) (k : K) (v : V) (m : list (K * V)) :
  Forall (fun e => Q (snd e)) m -> map_get eqb k m = Some v -> Q v.
Proof.
  intros Hm. induction m as [|[k' w] m IH]; simpl; [discriminate|].
  inversion Hm; subst. destruct (eqb k k').
  - intros E. injection E as <-. assumption.
  - apply IH. assumption.
Qed.
End MapFacts.

Lemma key_eqb_refl (k : option string) : key_eqb k k = true.
Proof. destruct k; simpl; [apply String.eqb_refl|reflexivity]. Qed.

(** ** The statistics of a run are finite *)

Definition finite_stats (s : BlockStats) : Prop :=
  exists lo hi, minNumber s = Fin lo /\ maxNumber s = Fin hi.

Definition all_finite {K : Type} (m : list (K * BlockStats)) : Prop :=
  Forall (fun e => finite_stats (snd e)) m.

Lemma update_stats_finite (id : option string) (a : ParsedAddress) (m : StatsMap) :
  all_finite m -> all_finite (update_stats id a m).
Proof.
  intros Hm. unfold update_stats, map_has.
  destruct (map_get key_eqb id m) as [stats|] eqn:E.
  - rewrite E.
    apply map_set_values; [exact Hm|].
    destruct (map_get_value key_eqb finite_stats id stats m Hm E) as (lo & hi & Hlo & Hhi).
    unfold finite_stats. simpl. rewrite Hlo, Hhi. simpl. eauto.
  - rewrite (map_get_set_same key_eqb key_eqb_refl).
    rewrite (map_set_set_same key_eqb key_eqb_refl).
    apply map_set_values; [exact Hm|].
    unfold finite_stats. simpl. eauto.
Qed.

Lemma fold_left_invariant {A B : Type} (P : A -> Prop) (f : A -> B -> A) (l : list B) :
  (forall a b, P a -> P (f a b)) -> forall a, P a -> P (fold_left f l a).
Proof.
  intros Hf. induction l as [|b l IH]; simpl; intros a Ha; [exact Ha|].
  apply IH, Hf, Ha.
Qed.

Lemma process_street_finite (size : Z) (natural : bool) (gap : Z)
    (st : list Result * StatsMap) (entry : string * list ParsedParcel) :
  all_finite (snd st) -> all_finite (snd (process_street size natural gap st entry)).
Proof.
  destruct entry as [street ps]. unfold process_street.
  destruct natural; revert st;
    apply (fold_left_invariant (fun st => all_finite (snd st))).
  - intros st b. unfold assign_boundary. revert st.
    apply (fold_left_invariant (fun st => all_finite (snd st))).
    intros [rs m] x H. simpl in *. apply update_stats_finite, H.
  - intros [rs m] x H. simpl in *. apply update_stats_finite, H.
Qed.

Lemma fromEntries_finite (m : StatsMap) : all_finite m -> all_finite (fromEntries m).
Proof.
  unfold fromEntries. intros Hm.
  assert (G : forall o : list (string * BlockStats), all_finite o ->
            all_finite (fold_left
              (fun o e => map_set String.eqb (property_name (fst e)) (snd e) o) m o)).
  { induction Hm as [|e m He Hm IH]; simpl; intros o Ho; [exact Ho|].
    apply IH. apply map_set_values; assumption. }
  apply G. constructor.
Qed.

Lemma assignBlockIds_finite (input : list Parcel) (options : Options) :
  all_finite (blockStats (assignBlockIds input options)).
Proof.
  unfold assignBlockIds.
  destruct (fold_left group_parcel input ([], [])) as [errors groups].
  match goal with
  | |- context [fold_left ?f groups ?s] =>
      assert (H : all_finite (snd (fold_left f groups s)));
      [|destruct (fold_left f groups s) as [results stats]]
  end.
  - apply (fold_left_invariant (fun st => all_finite (snd st))).
    + intros a b. apply process_street_finite.
    + constructor.
  - simpl in *. apply fromEntries_finite, H.
Qed.

(** ** The validator *)

(** The parcel count of a block is below 30% of the count expected for its
    range of house numbers. *)
Definition sparse (s : BlockStats) : Prop :=
  below_30_percent (count s)
    (expectedCount (num_sub (maxNumber s) (minNumber s))) = true.

(** The issues one block gives rise to. *)
Definition block_issues (e : string * BlockStats) : list Issue :=
  ((if below_30_percent (count (snd e))
         (expectedCount (num_sub (maxNumber (snd e)) (minNumber (snd e))))
    then [sparse_issue (fst e) (snd e)] else [])
   ++ (if count (snd e) <? 3 then [small_issue (fst e) (snd e)] else []))%list.

Lemma check_block_issues (stats : list (string * BlockStats)) (acc : list Issue) :
  fold_left check_block stats acc = (acc ++ flat_map block_issues stats)%list.
Proof.
  revert acc. induction stats as [|[id s] stats IH]; simpl; intros acc.
  - rewrite app_nil_r. reflexivity.
  - rewrite IH. unfold block_issues, push. simpl.
    destruct (below_30_percent _ _); destruct (count s <? 3); simpl;
      repeat rewrite <- app_assoc; reflexivity.
Qed.

Lemma block_issues_kinds (e : string * BlockStats) (i : Issue) :
  In i (block_issues e) ->
  (type i = "sparse_block" /\ severity i = "warning" /\ blockId i = fst e /\ sparse (snd e))
  \/ (type i = "small_block" /\ severity i = "info" /\ blockId i = fst e /\ count (snd e) < 3).
Proof.
  unfold block_issues, sparse. intros H. apply in_app_or in H. destruct H as [H|H].
  - destruct (below_30_percent _ _) eqn:E; [|contradiction].
    destruct H as [<-|[]]. left. auto.
  - destruct (count (snd e) <? 3) eqn:E; [|contradiction].
    destruct H as [<-|[]]. right. apply Z.ltb_lt in E. auto.
Qed.

Lemma no_error_issue (l : list Issue) :
  Forall (fun i => severity i = "warning" \/ severity i = "info") l ->
  filter (fun i => (severity i =? "error")%string) l = [].
Proof.
  induction 1 as [|i l [H|H] _ IH]; simpl; [reflexivity| |]; rewrite H; exact IH.
Qed.

(** C8.  The validator always answers [valid = true]: every issue is a
    ["sparse_block"] warning or a ["small_block"] information, none has the
    severity ["error"]; a sparse block issue is emitted for a block exactly
    when the block is sparse, a small block issue exactly when the block
    has fewer than 3 parcels; and on the statistics of a run, which are
    finite, a block is sparse exactly when
    [count < 30% * (floor((maxNumber - minNumber) / 2) + 1)]. *)
Theorem validateBlockAssignments_never_blocks :
  (forall a : Assignment,
      let v := validateBlockAssignments a in
      valid v = true
      /\ Forall (fun i => (type i = "sparse_block" /\ severity i = "warning")
                          \/ (type i = "small_block" /\ severity i = "info"))
           (issues v)
      /\ ~ In "error" (map severity (issues v))
      /\ (forall id : string,
             (exists i, In i (issues v) /\ type i = "sparse_block" /\ blockId i = id)
             <-> (exists s, In (id, s) (blockStats a) /\ sparse s))
      /\ (forall id : string,
             (exists i, In i (issues v) /\ type i = "small_block" /\ blockId i = id)
             <-> (exists s, In (id, s) (blockStats a) /\ count s < 3)))
  /\ (forall (input : list Parcel) (options : Options) (id : string) (s : BlockStats),
         In (id, s) (blockStats (assignBlockIds input options)) ->
         exists lo hi,
           minNumber s = Fin lo /\ maxNumber s = Fin hi
           /\ (sparse s <-> 10 * count s < 3 * ((hi - lo) / 2 + 1))).
Proof.
  split.
  - intros a v.
    assert (Hv : issues v = flat_map block_issues (blockStats a)).
    { unfold v, validateBlockAssignments, validate_stats. simpl.
      apply (check_block_issues (blockStats a) []). }
    assert (Hk : forall i, In i (issues v) ->
                 exists e, In e (blockStats a) /\ In i (block_issues e)).
    { intros i Hi. rewrite Hv in Hi. apply in_flat_map in Hi. exact Hi. }
    assert (Hall : Forall (fun i => (type i = "sparse_block" /\ severity i = "warning")
                                    \/ (type i = "small_block" /\ severity i = "info"))
                     (issues v)).
    { apply Forall_forall. intros i Hi. destruct (Hk i Hi) as (e & _ & He).
      destruct (block_issues_kinds e i He) as [(?&?&_)|(?&?&_)]; auto. }
    assert (Hsev : Forall (fun i => severity i = "warning" \/ severity i = "info")
                     (issues v)).
    { eapply Forall_impl; [|exact Hall]. simpl. intros i [[_ H]|[_ H]]; auto. }
    split; [|split; [exact Hall|split; [|split]]].
    + unfold v, validateBlockAssignments, validate_stats. simpl.
      fold (validate_stats (blockStats a)).
      change (fold_left check_block (blockStats a) []) with (issues v).
      rewrite (no_error_issue _ Hsev). reflexivity.
    + intros H. apply in_map_iff in H. destruct H as (i & Hs & Hi).
      rewrite Forall_forall in Hsev. destruct (Hsev i Hi) as [E|E];
        rewrite E in Hs; discriminate.
    + intros id. split.
      * intros (i & Hi & Ht & Hb). destruct (Hk i Hi) as ([id' s] & He & Hin).
        destruct (block_issues_kinds _ i Hin) as [(_&_&Hid&Hs)|(Ht'&_)].
        -- simpl in *. exists s. split; [congruence|exact Hs].
        -- rewrite Ht in Ht'. discriminate.
      * intros (s & Hin & Hs). exists (sparse_issue id s).
        split; [|split; reflexivity].
        rewrite Hv. apply in_flat_map. exists (id, s). split; [exact Hin|].
        unfold block_issues. simpl. unfold sparse in Hs. rewrite Hs.
        left. reflexivity.
    + intros id. split.
      * intros (i & Hi & Ht & Hb). destruct (Hk i Hi) as ([id' s] & He & Hin).
        destruct (block_issues_kinds _ i Hin) as [(Ht'&_)|(_&_&Hid&Hs)].
        -- rewrite Ht in Ht'. discriminate.
        -- simpl in *. exists s. split; [congruence|exact Hs].
      * intros (s & Hin & Hs). exists (small_issue id s).
        split; [|split; reflexivity].
        rewrite Hv. apply in_flat_map. exists (id, s). split; [exact Hin|].
        unfold block_issues. simpl. apply in_or_app. right.
        apply Z.ltb_lt in Hs. rewrite Hs. left. reflexivity.
  - intros input options id s Hin.
    pose proof (assignBlockIds_finite input options) as Hf.
    unfold all_finite in Hf. rewrite Forall_forall in Hf.
    destruct (Hf _ Hin) as (lo & hi & Hlo & Hhi). simpl in *.
    exists lo, hi. split; [exact Hlo|split; [exact Hhi|]].
    unfold sparse. rewrite Hlo, Hhi. simpl. apply Z.ltb_lt.
Qed.

Lemma validateBlockAssignments_never_blocks_witness :
  let a := assignBlockIds
             [{| parcel_id := "001"; address := JString "1201 Woodward Ave" |};
              {| parcel_id := "002"; address := JString "1299 Woodward Ave" |}]
             noOptions in
  valid (validateBlockAssignments a) = true
  /\ exists lo hi,
       Fin 1201 = Fin lo /\ Fin 1299 = Fin hi
       /\ (sparse {| count := 2; minNumber := Fin 1201; maxNumber := Fin 1299;
                     statsStreetName := "WOODWARD AVE" |}
           <-> 10 * 2 < 3 * ((hi - lo) / 2 + 1)).
Proof.
  intros a. split.
  - exact (proj1 (proj1 validateBlockAssignments_never_blocks a)).
  - apply (proj2 validateBlockAssignments_never_blocks
             [{| parcel_id := "001"; address := JString "1201 Woodward Ave" |};
              {| parcel_id := "002"; address := JString "1299 Woodward Ave" |}]
             noOptions "woodward_1200_1299"
             {| count := 2; minNumber := Fin 1201; maxNumber := Fin 1299;
                statsStreetName := "WOODWARD AVE" |}).
    vm_compute. left. reflexivity.
Defined.

(** ** Natural boundaries *)

(** [R] holds between every element and the next one. *)
Fixpoint adjacent {A : Type} (R : A -> A -> Prop) (l : list A) : Prop :=
  match l with
  | x :: (y :: _) as l' => R x y /\ adjacent R l'
  | _ => True
  end.

Lemma adjacent_snoc {A : Type} (R : A -> A -> Prop) (l : list A) (a b : A) :
  adjacent R (l ++ [a]) -> R a b -> adjacent R (l ++ [a; b]).
Proof.
  induction l as [|x l IH]; simpl.
  - auto.
  - destruct l as [|y l]; simpl in *.
    + intros [H _] Hab. auto.
    + intros [H1 H2] Hab. split; [exact H1|]. apply IH; assumption.
Qed.

Lemma adjacent_last_change {A : Type} (R : A -> A -> Prop) (l : list A) (c c' : A) :
  (forall a, R a c -> R a c') -> adjacent R (l ++ [c]) -> adjacent R (l ++ [c']).
Proof.
  intros Hc. induction l as [|x l IH]; simpl.
  - auto.
  - destruct l as [|y l]; simpl in *.
    + intros [H _]. auto.
    + intros [H1 H2]. split; [exact H1|]. apply IH; assumption.
Qed.

Lemma adjacent_impl {A : Type} (R R' : A -> A -> Prop) (l : list A) :
  (forall a b, R a b -> R' a b) -> adjacent R l -> adjacent R' l.
Proof.
  intros HR. induction l as [|x l IH]; simpl; [auto|].
  destruct l as [|y l]; [auto|]. intros [H1 H2]. split; [apply HR, H1|apply IH, H2].
Qed.

(** A boundary group is a run: it has members, [start] is the house number
    of the first one and [end] of the last one, and no gap between
    consecutive members exceeds the threshold. *)
Definition is_run (g : Z) (b : Boundary) : Prop :=
  match addresses b with
  | [] => False
  | x :: l =>
      start b = number_of x
      /\ end_ b = number_of (last l x)
      /\ adjacent (fun u v => number_of v - number_of u <= g) (x :: l)
  end.

(** The gap from the last member of a group to the first member of the next
    group exceeds the threshold. *)
Definition split_by_gap (g : Z) (b1 b2 : Boundary) : Prop :=
  start b2 - end_ b1 > g.

Lemma last_push {A : Type} (l : list A) (x d : A) : last (push l x) d = x.
Proof. unfold push. apply last_last. Qed.

Lemma last_default {A : Type} (l : list A) (a d d' : A) :
  last (a :: l) d = last (a :: l) d'.
Proof.
  revert a. induction l as [|b l IH]; intros a; [reflexivity|].
  change (last (b :: l) d = last (b :: l) d'). apply IH.
Qed.

Lemma cons_last_split {A : Type} (y : A) (l : list A) :
  exists l0, (y :: l = l0 ++ [last l y])%list.
Proof.
  revert y. induction l as [|z l IH]; intros y.
  - exists []. reflexivity.
  - destruct (IH z) as [l0 Hl0]. exists (y :: l0).
    assert (E : last (z :: l) y = last l z).
    { destruct l as [|w l]; [reflexivity|].
      change (last (w :: l) y = last (w :: l) z). apply last_default. }
    rewrite E. change (y :: z :: l = y :: (l0 ++ [last l z]))%list.
    rewrite <- Hl0. reflexivity.
Qed.

Lemma is_run_extend (g : Z) (b : Boundary) (x : ParsedParcel) :
  is_run g b -> number_of x - end_ b <= g ->
  is_run g {| start := start b; end_ := number_of x;
              addresses := push (addresses b) x |}.
Proof.
  unfold is_run. cbn [addresses start end_].
  destruct (addresses b) as [|y l] eqn:E; [contradiction|].
  intros (Hs & He & Hg) Hx. rewrite He in Hx.
  destruct (cons_last_split y l) as [l0 Hl0].
  unfold push. change ((y :: l) ++ [x])%list with (y :: (l ++ [x]))%list.
  cbv beta iota. split; [exact Hs|]. split.
  - destruct l as [|z l]; [reflexivity|].
    change (z :: l ++ [x])%list with ((z :: l) ++ [x])%list.
    rewrite last_last. reflexivity.
  - change (y :: (l ++ [x]))%list with ((y :: l) ++ [x])%list.
    revert Hg. rewrite Hl0. intros Hg. rewrite <- app_assoc.
    apply adjacent_snoc; assumption.
Qed.

Lemma walk_groups (g : Z) (rest : list ParsedParcel) :
  forall (done : list Boundary) (cur : Boundary) (prev : Z),
    Forall (is_run g) done -> is_run g cur -> end_ cur = prev ->
    adjacent (split_by_gap g) (done ++ [cur]) ->
    let r := walk g done cur prev rest in
    List.concat (map addresses r)
    = (List.concat (map addresses done) ++ addresses cur ++ rest)%list
    /\ Forall (is_run g) r
    /\ adjacent (split_by_gap g) r.
Proof.
  induction rest as [|x rest IH]; intros done cur prev Hdone Hcur Hend Hadj; simpl.
  - unfold push. split; [|split].
    + rewrite map_app, List.concat_app. simpl. rewrite !app_nil_r. reflexivity.
    + apply Forall_app. split; [exact Hdone|constructor; [exact Hcur|constructor]].
    + exact Hadj.
  - destruct (number_of x - prev >? g) eqn:E.
    + assert (Hclosed : {| start := start cur; end_ := prev; addresses := addresses cur |}
                        = cur).
      { destruct cur; simpl in *. subst. reflexivity. }
      rewrite Hclosed.
      edestruct (IH (push done cur)
                    {| start := number_of x; end_ := number_of x; addresses := [x] |}
                    (number_of x)) as (H1 & H2 & H3).
      * apply Forall_app. split; [exact Hdone|constructor; [exact Hcur|constructor]].
      * unfold is_run. simpl. auto.
      * reflexivity.
      * unfold push. rewrite <- app_assoc. simpl. apply adjacent_snoc; [exact Hadj|].
        unfold split_by_gap. simpl. apply Z.gtb_lt in E. lia.
      * split; [|split; assumption].
        rewrite H1. unfold push. rewrite map_app, List.concat_app. simpl.
        rewrite app_nil_r, <- app_assoc. reflexivity.
    + edestruct (IH done
                    {| start := start cur; end_ := number_of x;
                       addresses := push (addresses cur) x |}
                    (number_of x)) as (H1 & H2 & H3).
      * exact Hdone.
      * apply is_run_extend; [exact Hcur|].
        rewrite Hend. rewrite Z.gtb_ltb in E. apply Z.ltb_ge in E. lia.
      * reflexivity.
      * eapply adjacent_last_change; [|exact Hadj].
        intros a. unfold split_by_gap. simpl. auto.
      * split; [|split; assumption].
        rewrite H1. simpl. unfold push. rewrite <- app_assoc. reflexivity.
Qed.

(** Sorting by house number. *)
Definition by_number (a b : ParsedParcel) : Prop := number_of a <= number_of b.

Lemma insert_sorted_perm (x : ParsedParcel) (l : list ParsedParcel) :
  Permutation (insert_sorted x l) (x :: l).
Proof.
  induction l as [|y l IH]; simpl; [reflexivity|].
  destruct (number_of x <=? number_of y); [reflexivity|].
  rewrite IH. apply perm_swap.
Qed.

Lemma insert_sorted_sorted (x : ParsedParcel) (l : list ParsedParcel) :
  Sorted by_number l -> Sorted by_number (insert_sorted x l).
Proof.
  induction 1 as [|y l Hs IH Hd]; simpl.
  - repeat constructor.
  - destruct (number_of x <=? number_of y) eqn:E.
    + apply Z.leb_le in E. repeat constructor; assumption.
    + apply Z.leb_gt in E. constructor; [exact IH|].
      destruct l as [|z l]; simpl.
      * constructor. unfold by_number. lia.
      * destruct (number_of x <=? number_of z); constructor.
        -- unfold by_number. lia.
        -- inversion Hd; assumption.
Qed.

Lemma sort_by_number_sorted (l : list ParsedParcel) :
  Sorted by_number (sort_by_number l) /\ Permutation (sort_by_number l) l.
Proof.
  induction l as [|x l [IH1 IH2]]; simpl.
  - split; constructor.
  - split; [apply insert_sorted_sorted, IH1|].
    rewrite insert_sorted_perm. constructor. exact IH2.
Qed.

(** The eleven parcels of Woodward Avenue of the repository's test data. *)
Definition woodward_parcels : list Parcel :=
  [ {| parcel_id := "001"; address := JString "1201 Woodward Ave" |};
    {| parcel_id := "002"; address := JString "1205 Woodward Ave" |};
    {| parcel_id := "003"; address := JString "1209 Woodward Ave" |};
    {| parcel_id := "004"; address := JString "1215 Woodward Ave" |};
    {| parcel_id := "005"; address := JString "1225 Woodward Ave" |};
    {| parcel_id := "006"; address := JString "1235 Woodward Ave" |};
    {| parcel_id := "007"; address := JString "1245 Woodward Ave" |};
    {| parcel_id := "008"; address := JString "1255 Woodward Ave" |};
    {| parcel_id := "009"; address := JString "1301 Woodward Ave" |};
    {| parcel_id := "010"; address := JString "1305 Woodward Ave" |};
    {| parcel_id := "011"; address := JString "1315 Woodward Ave" |} ].

(** C2.  [detectBlockBoundaries] cuts the parsed addresses, sorted by house
    number, into consecutive groups: inside a group no gap between
    consecutive house numbers exceeds the threshold, and from the last
    member of a group to the first member of the next one the gap exceeds
    it.  With a threshold that is not negative the house numbers on the two
    sides of a cut differ, so equal house numbers stay in one group.  The
    eleven Woodward house numbers 1201 to 1315 with the threshold 50 form a
    single group from 1201 to 1315. *)
Theorem detectBlockBoundaries_gaps :
  forall (input : list Parcel) (g : Z),
    let sorted := sort_by_number (parse_and_filter input) in
    let groups := detectBlockBoundaries input g in
    Sorted by_number sorted
    /\ Permutation sorted (parse_and_filter input)
    /\ List.concat (map addresses groups) = sorted
    /\ Forall (is_run g) groups
    /\ adjacent (split_by_gap g) groups
    /\ (0 <= g -> adjacent (fun b1 b2 => end_ b1 < start b2) groups)
    /\ map (fun b => (start b, end_ b, map (fun x => parcel_id (parcel x)) (addresses b)))
         (detectBlockBoundaries woodward_parcels defaultGapThreshold)
       = [(1201, 1315,
           ["001"; "002"; "003"; "004"; "005"; "006"; "007"; "008"; "009"; "010"; "011"])].
Proof.
  intros input g sorted groups.
  destruct (sort_by_number_sorted (parse_and_filter input)) as [Hs Hp].
  assert (H : List.concat (map addresses groups) = sorted
              /\ Forall (is_run g) groups
              /\ adjacent (split_by_gap g) groups).
  { unfold groups, detectBlockBoundaries. fold sorted.
    destruct sorted as [|first rest]; [repeat split; constructor|].
    apply (walk_groups g rest []
             {| start := number_of first; end_ := number_of first;
                addresses := [first] |} (number_of first)).
    - constructor.
    - unfold is_run. simpl. auto.
    - reflexivity.
    - simpl. exact I. }
  destruct H as (H1 & H2 & H3).
  split; [exact Hs|]. split; [exact Hp|]. split; [exact H1|].
  split; [exact H2|]. split; [exact H3|]. split; [|reflexivity].
  intros Hg. eapply adjacent_impl; [|exact H3].
  unfold split_by_gap. intros a b. lia.
Qed.

Lemma detectBlockBoundaries_gaps_witness :
  let groups := detectBlockBoundaries woodward_parcels 50 in
  List.length groups = 1%nat
  /\ Forall (is_run 50) groups
  /\ adjacent (fun b1 b2 => end_ b1 < start b2) groups.
Proof.
  destruct (detectBlockBoundaries_gaps woodward_parcels 50)
    as (_ & _ & _ & H & _ & Hlt & _).
  split; [reflexivity|]. split; [exact H|]. apply Hlt. lia.
Defined.

(** ** Parse errors in a batch *)

Definition unparsable (p : Parcel) : bool :=
  match parseAddress (address p) with
  | None => true
  | Some _ => false
  end.

(** The record an unparsable parcel leaves in the output. *)
Definition error_result (p : Parcel) : Result :=
  {| result_parcel := p; result_parsed := None; block_id := None;
     parse_error := true; block_method := None |}.

(** A loop body that only appends to the results it is given. *)
Definition appends {S X : Type} (f : list Result * S -> X -> list Result * S) : Prop :=
  forall rs m x,
    f (rs, m) x = ((rs ++ fst (f ([], m) x))%list, snd (f ([], m) x)).

Lemma fold_left_appends {S X : Type} (f : list Result * S -> X -> list Result * S) :
  appends f -> appends (fun st l => fold_left f l st).
Proof.
  intros Hf rs m l. revert rs m.
  induction l as [|x l IH]; intros rs m; simpl.
  - rewrite app_nil_r. reflexivity.
  - rewrite (Hf rs m x).
    destruct (f ([], m) x) as [r1 m1] eqn:E1. simpl.
    rewrite (IH (rs ++ r1)%list m1), (IH r1 m1).
    destruct (fold_left f l ([], m1)) as [r2 m2]. simpl.
    rewrite app_assoc. reflexivity.
Qed.

Lemma process_street_appends (size : Z) (natural : bool) (gap : Z) :
  appends (process_street size natural gap).
Proof.
  intros rs m [street ps]. unfold process_street. destruct natural.
  - apply (fold_left_appends (assign_boundary street size)).
    intros rs' m' b. unfold assign_boundary.
    apply (fold_left_appends (assign_natural _)).
    intros rs'' m'' x. reflexivity.
  - apply (fold_left_appends (assign_fixed size)).
    intros rs' m' x. reflexivity.
Qed.

(** What the second loop appends carries no parse error flag. *)
Definition unflagged (st : list Result * StatsMap) : Prop :=
  Forall (fun r => parse_error r = false) (fst st).

Lemma unflagged_push (rs : list Result) (r : Result) :
  Forall (fun r => parse_error r = false) rs -> parse_error r = false ->
  Forall (fun r => parse_error r = false) (push rs r).
Proof.
  intros H Hr. unfold push. apply Forall_app. split; [exact H|].
  constructor; [exact Hr|constructor].
Qed.

Lemma process_street_unflagged (size : Z) (natural : bool) (gap : Z)
    (st : list Result * StatsMap) (entry : string * list ParsedParcel) :
  unflagged st -> unflagged (process_street size natural gap st entry).
Proof.
  destruct entry as [street ps]. unfold process_street.
  destruct natural; revert st; apply (fold_left_invariant unflagged).
  - intros st b. unfold assign_boundary. revert st.
    apply (fold_left_invariant unflagged).
    intros [rs m] x H. unfold unflagged in *. simpl in *.
    apply unflagged_push; [exact H|reflexivity].
  - intros [rs m] x H. unfold unflagged in *. simpl in *.
    apply unflagged_push; [exact H|reflexivity].
Qed.

(** The first loop: the parse errors go to the results in input order, and
    the street groups are those of the parsable parcels alone. *)
Lemma group_parcel_error (rs : list Result) (groups : StreetGroups) (p : Parcel) :
  unparsable p = true ->
  group_parcel (rs, groups) p = (push rs (error_result p), groups).
Proof.
  unfold unparsable, group_parcel.
  destruct (parseAddress (address p)); [discriminate|reflexivity].
Qed.

Lemma group_parcel_parsed (rs : list Result) (groups : StreetGroups) (p : Parcel) :
  unparsable p = false ->
  group_parcel (rs, groups) p = (rs, snd (group_parcel ([], groups) p)).
Proof.
  unfold unparsable, group_parcel.
  destruct (parseAddress (address p)); [reflexivity|discriminate].
Qed.

Lemma group_parcel_errors (input : list Parcel) :
  forall (rs : list Result) (groups : StreetGroups),
    fold_left group_parcel input (rs, groups)
    = ((rs ++ map error_result (filter unparsable input))%list,
       snd (fold_left group_parcel (filter (fun p => negb (unparsable p)) input)
              ([], groups))).
Proof.
  induction input as [|p input IH]; intros rs groups; cbn [fold_left filter].
  - simpl. rewrite app_nil_r. reflexivity.
  - destruct (unparsable p) eqn:U; cbn [negb fold_left map].
    + rewrite (group_parcel_error rs groups p U), IH.
      unfold push. rewrite <- app_assoc. reflexivity.
    + rewrite (group_parcel_parsed rs groups p U), IH.
      rewrite (group_parcel_parsed [] groups p U).
      reflexivity.
Qed.

Lemma filter_flagged (errs rs : list Result) :
  Forall (fun r => parse_error r = true) errs ->
  Forall (fun r => parse_error r = false) rs ->
  filter parse_error (errs ++ rs) = errs.
Proof.
  intros He Hr. rewrite filter_app.
  assert (E1 : filter parse_error errs = errs).
  { induction He as [|r l Hr' _ IH]; simpl; [reflexivity|]. rewrite Hr', IH. reflexivity. }
  assert (E2 : filter parse_error rs = []).
  { induction Hr as [|r l Hr' _ IH]; simpl; [reflexivity|]. rewrite Hr'. exact IH. }
  rewrite E1, E2. apply app_nil_r.
Qed.

Lemma filter_parsable_twice (input : list Parcel) :
  filter (fun p => negb (unparsable p)) (filter (fun p => negb (unparsable p)) input)
  = filter (fun p => negb (unparsable p)) input.
Proof.
  induction input as [|p l IH]; simpl; [reflexivity|].
  destruct (unparsable p) eqn:E; simpl; [exact IH|]. rewrite E. simpl.
  rewrite IH. reflexivity.
Qed.

Lemma filter_parsable_no_error (input : list Parcel) :
  filter unparsable (filter (fun p => negb (unparsable p)) input) = [].
Proof.
  induction input as [|p l IH]; simpl; [reflexivity|].
  destruct (unparsable p) eqn:E; simpl; [exact IH|]. rewrite E. exact IH.
Qed.

(** The shape of the output of [assignBlockIds]. *)
Lemma assignBlockIds_shape (input : list Parcel) (options : Options) :
  let clean := filter (fun p => negb (unparsable p)) input in
  let a := assignBlockIds input options in
  let b := assignBlockIds clean options in
  parcels a = (map error_result (filter unparsable input) ++ parcels b)%list
  /\ Forall (fun r => parse_error r = false) (parcels b)
  /\ blockStats a = blockStats b
  /\ uniqueBlocks (summary a) = uniqueBlocks (summary b)
  /\ uniqueStreets (summary a) = uniqueStreets (summary b).
Proof.
  intros clean a b. unfold a, b, assignBlockIds.
  rewrite (group_parcel_errors input [] []).
  rewrite (group_parcel_errors clean [] []).
  pose proof (filter_parsable_twice input) as Hc.
  pose proof (filter_parsable_no_error input) as Hn.
  fold clean in Hc, Hn.
  rewrite Hc, Hn. simpl. fold clean.
  set (groups := snd (fold_left group_parcel clean ([], []))).
  set (f := process_street (or_default (blockSize options) defaultBlockSize)
              (or_default (useNaturalBoundaries options) false)
              (or_default (gapThreshold options) defaultGapThreshold)).
  pose proof (fold_left_appends f (process_street_appends _ _ _)
                (map error_result (filter unparsable input)) [] groups) as Happ.
  cbv beta in Happ. rewrite Happ.
  assert (Hu : unflagged (fold_left f groups ([], []))).
  { apply (fold_left_invariant unflagged).
    - intros st e. apply process_street_unflagged.
    - constructor. }
  destruct (fold_left f groups ([], [])) as [results stats]. simpl.
  repeat split. exact Hu.
Qed.

Lemma parseErrors_counts_flags (input : list Parcel) (options : Options) :
  let a := assignBlockIds input options in
  parseErrors (summary a) = List.length (filter parse_error (parcels a)).
Proof.
  unfold assignBlockIds.
  destruct (fold_left group_parcel input ([], [])) as [errors groups].
  match goal with
  | |- context [fold_left ?f groups ?s] => destruct (fold_left f groups s)
  end.
  reflexivity.
Qed.

(** C4.  Every unparsable parcel leaves in the output one record with the
    parse error flag and no block identifier; the records with the flag are
    exactly those, one for each unparsable parcel in input order, and
    [summary.parseErrors] is their number; the statistics, the number of
    blocks and the number of streets are those of the run on the parsable
    parcels alone.  For the three parcels ["Woodward Ave"], [""] and [null]
    all three are flagged and there is no block and no street. *)
Theorem assignBlockIds_parse_errors :
  forall (input : list Parcel) (options : Options),
    let a := assignBlockIds input options in
    let b := assignBlockIds (filter (fun p => negb (unparsable p)) input) options in
    (forall p, In p input -> unparsable p = true -> In (error_result p) (parcels a))
    /\ filter parse_error (parcels a) = map error_result (filter unparsable input)
    /\ parseErrors (summary a) = List.length (filter unparsable input)
    /\ blockStats a = blockStats b
    /\ uniqueBlocks (summary a) = uniqueBlocks (summary b)
    /\ uniqueStreets (summary a) = uniqueStreets (summary b)
    /\ (let three := [ {| parcel_id := "015"; address := JString "Woodward Ave" |};
                       {| parcel_id := "016"; address := JString "" |};
                       {| parcel_id := "017"; address := JNull |} ] in
        let c := assignBlockIds three options in
        parcels c = map error_result three
        /\ blockStats c = []
        /\ summary c = {| totalParcels := 3; successfullyAssigned := 0;
                          parseErrors := 3; uniqueBlocks := 0;
                          uniqueStreets := 0 |}).
Proof.
  intros input options a b.
  destruct (assignBlockIds_shape input options) as (Hp & Hu & Hs & Hb & Hst).
  fold a b in Hp, Hu, Hs, Hb, Hst.
  assert (Hf : filter parse_error (parcels a)
               = map error_result (filter unparsable input)).
  { rewrite Hp. apply filter_flagged; [|exact Hu].
    apply Forall_forall. intros r Hr. apply in_map_iff in Hr.
    destruct Hr as (p & <- & _). reflexivity. }
  split; [|split; [exact Hf|split; [|split; [exact Hs|split; [exact Hb|split; [exact Hst|]]]]]].
  - intros p Hin Hun. rewrite Hp. apply in_or_app. left.
    apply in_map. apply filter_In. split; assumption.
  - unfold a. rewrite (parseErrors_counts_flags input options). fold a.
    rewrite Hf. apply length_map.
  - destruct options as [[s|] [[|]|] [g|]]; repeat split.
Qed.

Lemma assignBlockIds_parse_errors_witness :
  let p := {| parcel_id := "015"; address := JString "Woodward Ave" |} in
  let q := {| parcel_id := "001"; address := JString "1201 Woodward Ave" |} in
  In (error_result p) (parcels (assignBlockIds [q; p] noOptions)).
Proof.
  intros p q.
  apply (proj1 (assignBlockIds_parse_errors [q; p] noOptions) p).
  - right. left. reflexivity.
  - reflexivity.
Defined.

(** ** Segmentation of a street *)

Import Geometric.

Section Segmentation.
Context {T : Turf}.

(** The geometry operations do not throw on this street. *)
Definition slices_succeed (street : Street Line) : Prop :=
  forall p q : Point,
    exists l b c,
      turf_lineSlice p q street = Some l /\ turf_bbox l = Some b
      /\ turf_center l = Some c.

(** [s] is the segment of [street] from the point [p], named [from], to the
    point [q], named [to]. *)
Definition segment_from_to (street : Street Line) (s : Block)
    (from : jsval) (p : Point) (to : jsval) (q : Point) : Prop :=
  fromCrossStreet s = from
  /\ toCrossStreet s = to
  /\ turf_lineSlice p q street = Some (geometry s)
  /\ streetName s = street_name street
  /\ blockId s = generateBlockId (street_name street) from to.

(** The consecutive pairs of a list. *)
Definition consecutive {A : Type} (l : list A) : list (A * A) := combine l (tl l).

Definition segment_between (street : Street Line) (s : Block)
    (ab : Intersection Point * Intersection Point) : Prop :=
  segment_from_to street s (crossStreet (fst ab)) (point (fst ab))
    (crossStreet (snd ab)) (point (snd ab)).

Lemma slice_segment_succeeds (street : Street Line) (from : jsval) (p : Point)
    (to : jsval) (q : Point) :
  slices_succeed street ->
  exists s, slice_segment street from p to q = Some s
            /\ segment_from_to street s from p to q.
Proof.
  intros H. destruct (H p q) as (l & b & c & Hl & Hb & Hc).
  unfold slice_segment. rewrite Hl, Hb, Hc. eexists. split; [reflexivity|].
  unfold segment_from_to. simpl. auto.
Qed.

Lemma segments_between_pairs (street : Street Line) :
  slices_succeed street ->
  forall (l : list (Intersection Point)) (acc : list Block),
    exists middle,
      segments_between street l acc = (acc ++ middle)%list
      /\ Forall2 (segment_between street) middle (consecutive l).
Proof.
  intros H. induction l as [|a l IH]; intros acc.
  - exists []. simpl. rewrite app_nil_r. split; [reflexivity|constructor].
  - destruct l as [|b l].
    + exists []. simpl. rewrite app_nil_r. split; [reflexivity|constructor].
    + destruct (slice_segment_succeeds street (crossStreet a) (point a)
                  (crossStreet b) (point b) H) as (s & Hs & Hd).
      destruct (IH (push acc s)) as (middle & Hm & Hf).
      exists (s :: middle). split.
      * change (segments_between street (a :: b :: l) acc)
          with (segments_between street (b :: l)
                  (push_if_built acc
                     (slice_segment street (crossStreet a) (point a)
                        (crossStreet b) (point b)))).
        rewrite Hs. simpl push_if_built. rewrite Hm.
        unfold push. rewrite <- app_assoc. reflexivity.
      * constructor; [exact Hd|exact Hf].
Qed.

Lemma farther_than_10m_iff (d : Q) :
  farther_than_10m d = true <-> (1 # 100 < d)%Q.
Proof.
  unfold farther_than_10m. rewrite negb_true_iff.
  split.
  - intros E. apply Qnot_le_lt. intros Hle. apply Qle_bool_iff in Hle. congruence.
  - intros Hlt. destruct (Qle_bool d (1 # 100)) eqn:E; [|reflexivity].
    apply Qle_bool_iff in E. exfalso. apply (Qlt_not_le _ _ Hlt E).
Qed.

(** C5.  Without intersections the result is the one segment from ["start"]
    to ["end"] that carries the whole line.  With intersections, on a street
    where the geometry operations succeed, the result is an optional leading
    segment, then one segment for every consecutive pair of intersections,
    then an optional trailing segment; the leading segment runs from the
    first point of the line to the first intersection and is there exactly
    when their distance is more than 0.01 km, the trailing segment runs
    from the last intersection to the last point of the line and is there
    exactly when their distance is more than 0.01 km. *)
Theorem createBlockSegments_segments :
  forall street : Street Line,
    (forall box, turf_bbox (street_geometry street) = Some box ->
       exists s,
         createBlockSegments street [] = Some [s]
         /\ fromCrossStreet s = JString "start"
         /\ toCrossStreet s = JString "end"
         /\ geometry s = street_geometry street
         /\ blockId s
            = generateBlockId (street_name street) (JString "start") (JString "end"))
    /\ (forall (first : Intersection Point) (rest : list (Intersection Point))
               (c0 cn : Position) (cs : list Position),
          slices_succeed street ->
          coordinates (street_geometry street) = c0 :: cs ->
          last cs c0 = cn ->
          let sorted := first :: rest in
          let final := last rest first in
          let startPoint := turf_point c0 in
          let endPoint := turf_point cn in
          exists leading middle trailing,
            createBlockSegments street sorted
            = Some (leading ++ middle ++ trailing)%list
            /\ Forall2 (segment_between street) middle (consecutive sorted)
            /\ List.length middle = (List.length sorted - 1)%nat
            /\ ((1 # 100 < turf_distance startPoint (point first))%Q ->
                exists s, leading = [s]
                          /\ segment_from_to street s (JString "start") startPoint
                               (crossStreet first) (point first))
            /\ ((turf_distance startPoint (point first) <= 1 # 100)%Q ->
                leading = [])
            /\ ((1 # 100 < turf_distance (point final) endPoint)%Q ->
                exists s, trailing = [s]
                          /\ segment_from_to street s (crossStreet final) (point final)
                               (JString "end") endPoint)
            /\ ((turf_distance (point final) endPoint <= 1 # 100)%Q ->
                trailing = [])).
Proof.
  intros street. split.
  - intros box Hbox. unfold createBlockSegments. rewrite Hbox.
    eexists. split; [reflexivity|]. simpl. auto.
  - intros first rest c0 cn cs Hok Hcoords Hlast sorted final startPoint endPoint.
    destruct (segments_between_pairs street Hok sorted []) as (middle & Hm & Hf).
    change ([] ++ middle)%list with middle in Hm.
    destruct (slice_segment_succeeds street (JString "start") startPoint
                (crossStreet first) (point first) Hok) as (s1 & Hs1 & Hd1).
    destruct (slice_segment_succeeds street (crossStreet final) (point final)
                (JString "end") endPoint Hok) as (s2 & Hs2 & Hd2).
    assert (Hrev : hd_error (rev (coordinates (street_geometry street))) = Some cn).
    { rewrite Hcoords. destruct (cons_last_split c0 cs) as [l0 Hl0].
      rewrite Hl0, rev_app_distr. simpl. rewrite Hlast. reflexivity. }
    assert (Hfinal : last sorted first = final).
    { unfold sorted, final. destruct rest as [|r rest]; [reflexivity|].
      change (last (r :: rest) first = last (r :: rest) first). reflexivity. }
    exists (if farther_than_10m (turf_distance startPoint (point first))
            then [s1] else []).
    exists middle.
    exists (if farther_than_10m (turf_distance (point final) endPoint)
            then [s2] else []).
    split; [|split; [exact Hf|split; [|repeat split]]].
    + unfold createBlockSegments. subst sorted. cbv beta iota.
      rewrite Hm, Hrev, Hcoords.
      cbn [hd_error]. fold startPoint endPoint. rewrite Hfinal, Hs1, Hs2.
      destruct (farther_than_10m (turf_distance startPoint (point first)));
        destruct (farther_than_10m (turf_distance (point final) endPoint));
        unfold push_if_built, push; simpl; rewrite ?app_nil_r; reflexivity.
    + apply Forall2_length in Hf. rewrite Hf. unfold consecutive. subst sorted.
      rewrite length_combine. cbn [tl List.length]. lia.
    + intros Hd. apply farther_than_10m_iff in Hd. rewrite Hd. eauto.
    + intros Hd.
      destruct (farther_than_10m (turf_distance startPoint (point first))) eqn:E;
        [|reflexivity].
      apply farther_than_10m_iff in E. exfalso. apply (Qlt_not_le _ _ E Hd).
    + intros Hd. apply farther_than_10m_iff in Hd. rewrite Hd. eauto.
    + intros Hd.
      destruct (farther_than_10m (turf_distance (point final) endPoint)) eqn:E;
        [|reflexivity].
      apply farther_than_10m_iff in E. exfalso. apply (Qlt_not_le _ _ E Hd).
Qed.

End Segmentation.

(** ** Parcels and corridors *)


Section SpatialJoin.
Context {T : Turf}.













End SpatialJoin.

(** ** A street on a straight line

    Points are positions in metres along the line, a line is the pair of its
    end points, a corridor is the line extended by the buffer distance at
    both ends, and the centroid of a parcel is its position. *)

Definition line_turf : Turf :=
  {| Position := Z;
     Point := Z;
     Line := Z * Z;
     BBox := Z * Z;
     Polygon := Z * Z;
     ParcelFeature := Z;
     coordinates := fun l => [fst l; snd l];
     turf_point := fun c => c;
     turf_distance := fun p q => Z.abs (p - q) # 1000;
     turf_lineSlice := fun p q _ => Some (p, q);
     turf_bbox := fun l => Some l;
     turf_center := fun l => Some ((fst l + snd l) / 2);
     turf_buffer := fun s d => Some (fst (geometry s) - d, snd (geometry s) + d);
     turf_centroid := fun p => Some p;
     turf_booleanPointInPolygon :=
       fun pt polygon => Some ((fst polygon <=? pt) && (pt <=? snd polygon))%bool |}.

Definition main_street : Street (Z * Z) :=
  {| street_name := JString "Main St"; street_geometry := (0, 100) |}.

Definition crossing (name : string) (at_metres : Z) : Intersection Z :=
  {| point := at_metres; crossStreet := JString name; crossStreetId := JUndefined |}.




(** Intersections at 10, 40 and 70 metres of a line of 100 metres: two inner
    segments and a trailing one, no leading one. *)
Lemma createBlockSegments_segments_witness :
  let sorted := [crossing "A" 10; crossing "B" 40; crossing "C" 70] in
  option_map (map (fun s => (blockId s, geometry s)))
    (createBlockSegments (T := line_turf) main_street sorted)
  = Some [("main_st_a_b", (10, 40)); ("main_st_b_c", (40, 70));
          ("main_st_c_end", (70, 100))]
  /\ exists leading middle trailing,
       createBlockSegments (T := line_turf) main_street sorted
       = Some (leading ++ middle ++ trailing)%list
       /\ leading = []
       /\ List.length middle = 2%nat
       /\ List.length trailing = 1%nat.
Proof.
  intros sorted. split; [reflexivity|].
  destruct (proj2 (createBlockSegments_segments (T := line_turf) main_street)
              (crossing "A" 10) [crossing "B" 40; crossing "C" 70] 0 100 [100])
    as (leading & middle & trailing & Hr & _ & Hm & _ & Hl & Ht & _).
  - intros p q. exists (p, q), (p, q), ((p + q) / 2). repeat split.
  - reflexivity.
  - reflexivity.
  - exists leading, middle, trailing. split; [exact Hr|]. split; [|split].
    + apply Hl. vm_compute. discriminate.
    + exact Hm.
    + destruct Ht as (s & -> & _); [vm_compute|]; reflexivity.
Defined.


(** * Further properties of the address based assigner *)

Import Address.

(** ** What the parser accepts *)

Lemma digit_upper (c : ascii) : is_digit (upper_char c) = is_digit c.
Proof. destruct c as [[|] [|] [|] [|] [|] [|] [|] [|]]; reflexivity. Qed.

Lemma space_upper (c : ascii) : is_space (upper_char c) = is_space c.
Proof. destruct c as [[|] [|] [|] [|] [|] [|] [|] [|]]; reflexivity. Qed.

Lemma upper_upper (c : ascii) : upper_char (upper_char c) = upper_char c.
Proof. destruct c as [[|] [|] [|] [|] [|] [|] [|] [|]]; reflexivity. Qed.

(** The string is empty or starts with a character that is no digit. *)
Definition no_leading_digit (s : string) : bool :=
  match s with
  | EmptyString => true
  | String c _ => negb (is_digit c)
  end.

Lemma plus_greedy_no_match {A : Type} (p : ascii -> bool) (s : string)
    (k : string -> option A) :
  match s with EmptyString => true | String c _ => negb (p c) end = true ->
  plus_greedy p s k = None.
Proof.
  destruct s as [|c s]; simpl; [reflexivity|].
  destruct (p c); [discriminate|reflexivity].
Qed.

Lemma exec_needs_digit (rest : regex) (s : string) :
  no_leading_digit s = true ->
  exec (Seq (Grp 1 (Plus is_digit)) rest) s = None.
Proof.
  intros H. unfold exec. cbn [run]. apply plus_greedy_no_match. exact H.
Qed.

Lemma no_leading_digit_upper (s : string) :
  no_leading_digit (toUpperCase s) = no_leading_digit s.
Proof. destruct s as [|c s]; simpl; [reflexivity|]. rewrite digit_upper. reflexivity. Qed.

(** X1.  An address whose trimmed text does not start with a digit is not
    parsed: neither pattern applies and the result is [null]. *)
Theorem parseAddress_needs_house_number :
  forall a : string,
    no_leading_digit (trim a) = true -> parseAddress (JString a) = None.
Proof.
  intros a H. unfold parseAddress.
  destruct (a =? "")%string; [reflexivity|].
  rewrite <- no_leading_digit_upper in H.
  change addressRegex with
    (Seq (Grp 1 (Plus is_digit))
       (seq [ Opt (Seq (Chr "-") (Plus is_digit));
              Plus is_space;
              Opt (Seq (Grp 2 (one_of directions)) (Plus is_space));
              Grp 3 (PlusLazy is_dot);
              Plus is_space;
              Grp 4 (one_of streetTypes);
              Opt (Chr ".");
              Eos ])).
  change numberedStreetRegex with
    (Seq (Grp 1 (Plus is_digit)) (seq [Plus is_space; Grp 2 (Plus is_dot); Eos])).
  rewrite !(exec_needs_digit _ _ H). reflexivity.
Qed.

Lemma parseAddress_needs_house_number_witness :
  parseAddress (JString "  Woodward Ave 1234 ") = None.
Proof. apply parseAddress_needs_house_number. reflexivity. Defined.

Lemma parse_digits_nonneg (s : string) (acc : Z) :
  0 <= acc -> 0 <= parse_digits acc s.
Proof.
  revert acc. induction s as [|c s IH]; cbn [parse_digits]; intros acc H; [exact H|].
  apply IH. unfold digit_value. lia.
Qed.

(** X2.  A parsed address has a house number that is not negative and a
    street name made of characters of [[a-z0-9_]] only. *)
Theorem parseAddress_invariant :
  forall (a : jsval) (p : ParsedAddress),
    parseAddress a = Some p ->
    0 <= houseNumber p /\ all_chars is_name_char (streetName p) = true.
Proof.
  intros a p. unfold parseAddress.
  destruct a as [| |s]; try discriminate.
  destruct (s =? "")%string; [discriminate|].
  destruct (exec addressRegex _) as [m|].
  - intros E. injection E as <-. split.
    + apply (parse_digits_nonneg _ 0). reflexivity.
    + exact (normalize_clean
               (JString (group_or_empty 2 m ++ " " ++ group_or_empty 3 m))).
  - destruct (exec numberedStreetRegex _) as [m|]; [|discriminate].
    intros E. injection E as <-. split.
    + apply (parse_digits_nonneg _ 0). reflexivity.
    + exact (normalize_clean (JString (group_or_empty 2 m))).
Qed.

Lemma parseAddress_invariant_witness :
  0 <= 500 /\ all_chars is_name_char "e_jefferson" = true.
Proof.
  exact (parseAddress_invariant (JString "500 E. Jefferson Ave")
           {| houseNumber := 500; directional := None; streetName := "e_jefferson";
              streetType := Some "AVE"; fullStreet := "E. JEFFERSON AVE" |}
           eq_refl).
Defined.

Lemma map_string_empty (f : ascii -> ascii) (s : string) :
  (map_string f s =? "")%string = (s =? "")%string.
Proof. destruct s; reflexivity. Qed.

Lemma trimStart_upper (s : string) :
  trimStart (toUpperCase s) = toUpperCase (trimStart s).
Proof.
  unfold toUpperCase. induction s as [|c s IH]; simpl; [reflexivity|].
  rewrite space_upper. destruct (is_space c); [exact IH|reflexivity].
Qed.

Lemma trimEnd_upper (s : string) :
  trimEnd (toUpperCase s) = toUpperCase (trimEnd s).
Proof.
  unfold toUpperCase. induction s as [|c s IH]; simpl; [reflexivity|].
  rewrite space_upper, IH, map_string_empty.
  destruct (is_space c && (trimEnd s =? "")%string)%bool; reflexivity.
Qed.

Lemma trim_upper (s : string) : trim (toUpperCase s) = toUpperCase (trim s).
Proof. unfold trim. rewrite trimStart_upper, trimEnd_upper. reflexivity. Qed.

(** X3.  The parser does not look at the case of letters: two addresses
    with the same upper case form are parsed alike. *)
Theorem parseAddress_ignores_case :
  forall a b : string,
    toUpperCase a = toUpperCase b ->
    parseAddress (JString a) = parseAddress (JString b).
Proof.
  intros a b H. unfold parseAddress.
  assert (He : (a =? "")%string = (b =? "")%string).
  { rewrite <- (map_string_empty upper_char a), <- (map_string_empty upper_char b).
    fold (toUpperCase a) (toUpperCase b). rewrite H. reflexivity. }
  rewrite He, <- (trim_upper a), <- (trim_upper b), H. reflexivity.
Qed.

Lemma parseAddress_ignores_case_witness :
  parseAddress (JString "1234 woodward AVE") = parseAddress (JString "1234 Woodward Ave").
Proof. apply parseAddress_ignores_case. reflexivity. Defined.

(** ** Invariants of the statistics *)

Section StatsInvariant.
Variable Q : BlockStats -> Prop.

(** [Q] holds after the first parcel of a block and is kept by every
    further parcel. *)
Hypothesis Q_first :
  forall a : ParsedAddress,
    Q {| count := 0 + 1;
         minNumber := num_min PosInf (Fin (houseNumber a));
         maxNumber := num_max NegInf (Fin (houseNumber a));
         statsStreetName := fullStreet a |}.
Hypothesis Q_next :
  forall (s : BlockStats) (a : ParsedAddress),
    Q s ->
    Q {| count := count s + 1;
         minNumber := num_min (minNumber s) (Fin (houseNumber a));
         maxNumber := num_max (maxNumber s) (Fin (houseNumber a));
         statsStreetName := statsStreetName s |}.



End StatsInvariant.



(** ** The street groups *)

(** The parcels of all groups, street after street. *)
Definition members (groups : StreetGroups) : list ParsedParcel :=
  List.concat (map snd groups).

(** A grouped parcel carries the parse of its own address and sits in the
    group of its street. *)
Definition well_grouped (e : string * list ParsedParcel) : Prop :=
  Forall (fun x => parseAddress (address (parcel x)) = Some (parsed x)
                   /\ streetName (parsed x) = fst e) (snd e).

Lemma map_set_entries {V : Type} (P : string * V -> Prop) (k : string) (v : V)
    (m : list (string * V)) :
  Forall P m -> P (k, v) -> Forall P (map_set String.eqb k v m).
Proof.
  intros Hm Hv. induction m as [|[k' w] m IH]; simpl.
  - constructor; [exact Hv|constructor].
  - inversion Hm; subst. destruct (String.eqb k k').
    + constructor; assumption.
    + constructor; [assumption|apply IH; assumption].
Qed.

Lemma map_get_entry {V : Type} (P : string * V -> Prop) (k : string) (v : V)
    (m : list (string * V)) :
  Forall P m -> map_get String.eqb k m = Some v -> P (k, v).
Proof.
  intros Hm. induction m as [|[k' w] m IH]; simpl; [discriminate|].
  inversion Hm; subst. destruct (String.eqb_spec k k') as [->|Hne].
  - intros E. injection E as <-. assumption.
  - apply IH. assumption.
Qed.

Lemma members_set_absent (k : string) (groups : StreetGroups) :
  map_get String.eqb k groups = None ->
  members (map_set String.eqb k [] groups) = members groups.
Proof.
  unfold members. induction groups as [|[k' l] groups IH]; simpl; [reflexivity|].
  destruct (String.eqb k k'); [discriminate|]. intros E. simpl. rewrite (IH E).
  reflexivity.
Qed.

Lemma members_push (k : string) (l : list ParsedParcel) (x : ParsedParcel)
    (groups : StreetGroups) :
  map_get String.eqb k groups = Some l ->
  Permutation (members (map_set String.eqb k (push l x) groups)) (x :: members groups).
Proof.
  unfold members, push. induction groups as [|[k' l'] groups IH]; simpl; [discriminate|].
  destruct (String.eqb k k').
  - intros E. injection E as ->. simpl. rewrite <- app_assoc. simpl.
    symmetry. apply Permutation_middle.
  - intros E. simpl. rewrite (IH E). symmetry. apply Permutation_middle.
Qed.

(** One step of the first loop on a parsable parcel. *)
Lemma group_parcel_step (rs : list Result) (groups : StreetGroups) (p : Parcel)
    (a : ParsedAddress) :
  parseAddress (address p) = Some a ->
  Forall well_grouped groups ->
  let groups' := snd (group_parcel (rs, groups) p) in
  fst (group_parcel (rs, groups) p) = rs
  /\ Forall well_grouped groups'
  /\ Permutation (members groups') ({| parcel := p; parsed := a |} :: members groups).
Proof.
  intros Hp Hg. unfold group_parcel. rewrite Hp. cbn [fst snd]. unfold map_has.
  split; [reflexivity|].
  destruct (map_get String.eqb (streetName a) groups) as [l|] eqn:E.
  - rewrite E. cbn [or_default]. split.
    + apply map_set_entries; [exact Hg|].
      pose proof (map_get_entry well_grouped _ _ _ Hg E) as Hl.
      unfold well_grouped in *. cbn [fst snd] in *. unfold push.
      apply Forall_app. split; [exact Hl|]. constructor; [|constructor].
      cbn [parcel parsed]. split; [exact Hp|reflexivity].
    + apply members_push. exact E.
  - rewrite (map_get_set_same String.eqb String.eqb_refl). cbn [or_default].
    rewrite (map_set_set_same String.eqb String.eqb_refl). split.
    + apply map_set_entries; [exact Hg|].
      unfold well_grouped, push. cbn [fst snd app]. constructor; [|constructor].
      cbn [parcel parsed]. split; [exact Hp|reflexivity].
    + rewrite <- (map_set_set_same String.eqb String.eqb_refl
                    (streetName a) (push [] {| parcel := p; parsed := a |}) []).
      rewrite members_push with (l := []).
      * rewrite (members_set_absent _ _ E). reflexivity.
      * apply (map_get_set_same String.eqb String.eqb_refl).
Qed.

(** The parcels of the input that parse, with their parse. *)
Fixpoint parsed_parcels (input : list Parcel) : list ParsedParcel :=
  match input with
  | [] => []
  | p :: rest =>
      match parseAddress (address p) with
      | Some a => {| parcel := p; parsed := a |} :: parsed_parcels rest
      | None => parsed_parcels rest
      end
  end.

Lemma group_parcel_groups (input : list Parcel) :
  forall (rs : list Result) (groups : StreetGroups),
    Forall well_grouped groups ->
    let groups' := snd (fold_left group_parcel input (rs, groups)) in
    Forall well_grouped groups'
    /\ Permutation (members groups') (members groups ++ parsed_parcels input).
Proof.
  induction input as [|p input IH]; intros rs groups Hg; cbn [fold_left parsed_parcels].
  - cbn [snd]. rewrite app_nil_r. split; [exact Hg|reflexivity].
  - destruct (parseAddress (address p)) as [a|] eqn:Hp.
    + destruct (group_parcel_step rs groups p a Hp Hg) as (Hrs & Hg' & Hperm).
      destruct (group_parcel (rs, groups) p) as [rs' groups'] eqn:E.
      cbn [fst snd] in *.
      destruct (IH rs' groups' Hg') as (H1 & H2). split; [exact H1|].
      rewrite H2, Hperm. simpl. apply Permutation_middle.
    + assert (U : unparsable p = true) by (unfold unparsable; rewrite Hp; reflexivity).
      rewrite (group_parcel_error rs groups p U). apply IH. exact Hg.
Qed.

(** ** Fixed size mode *)

(** The record of a parsed parcel in fixed size mode. *)
Definition fixed_result (size : Z) (x : ParsedParcel) : Result :=
  {| result_parcel := parcel x;
     result_parsed := Some (parsed x);
     block_id := generateBlockIdFromAddress (Some (parsed x)) size;
     parse_error := false;
     block_method := Some "fixed_size" |}.

Lemma assign_fixed_results (size : Z) (l : list ParsedParcel) :
  forall (rs : list Result) (m : StatsMap),
    fst (fold_left (assign_fixed size) l (rs, m))
    = (rs ++ map (fixed_result size) l)%list.
Proof.
  induction l as [|x l IH]; intros rs m; simpl.
  - rewrite app_nil_r. reflexivity.
  - rewrite IH. unfold push. rewrite <- app_assoc. reflexivity.
Qed.

Lemma fixed_streets_results (size gap : Z) (groups : StreetGroups) :
  forall st : list Result * StatsMap,
    fst (fold_left (process_street size false gap) groups st)
    = (fst st ++ map (fixed_result size) (members groups))%list.
Proof.
  unfold members. induction groups as [|[k ps] groups IH]; intros [rs m]; simpl.
  - rewrite app_nil_r. reflexivity.
  - rewrite IH, map_app, app_assoc. f_equal.
    apply assign_fixed_results.
Qed.


(** The records of a run in fixed size mode. *)
Lemma assignBlockIds_fixed_records (input : list Parcel) (options : Options) :
  or_default (useNaturalBoundaries options) false = false ->
  exists grouped : list ParsedParcel,
    Permutation grouped (parsed_parcels input)
    /\ parcels (assignBlockIds input options)
       = (map error_result (filter unparsable input)
          ++ map (fixed_result (or_default (blockSize options) defaultBlockSize))
               grouped)%list.
Proof.
  intros Hfixed. unfold assignBlockIds. rewrite Hfixed.
  destruct (group_parcel_groups input [] [] ltac:(constructor)) as (_ & Hperm).
  rewrite (group_parcel_errors input [] []) in *. cbn [snd app] in *.
  set (groups := snd (fold_left group_parcel
                        (filter (fun p => negb (unparsable p)) input) ([], []))) in *.
  exists (members groups). split; [exact Hperm|].
  pose proof (fixed_streets_results
                (or_default (blockSize options) defaultBlockSize)
                (or_default (gapThreshold options) defaultGapThreshold) groups
                (map error_result (filter unparsable input), [])) as H.
  cbn [fst] in H.
  destruct (fold_left _ groups _) as [results stats]. exact H.
Qed.

Lemma parsed_parcels_parse (input : list Parcel) :
  Forall (fun x => parseAddress (address (parcel x)) = Some (parsed x))
    (parsed_parcels input)
  /\ map parcel (parsed_parcels input) = filter (fun p => negb (unparsable p)) input.
Proof.
  induction input as [|p input [IH1 IH2]]; simpl; [split; constructor|].
  unfold unparsable at 1.
  destruct (parseAddress (address p)) as [a|] eqn:E; simpl.
  - split; [constructor; [exact E|exact IH1]|]. rewrite IH2. reflexivity.
  - split; assumption.
Qed.

Lemma filter_partition {A : Type} (f : A -> bool) (l : list A) :
  Permutation (filter f l ++ filter (fun x => negb (f x)) l) l.
Proof.
  induction l as [|x l IH]; simpl; [reflexivity|].
  destruct (f x); simpl.
  - constructor. exact IH.
  - rewrite <- Permutation_middle. constructor. exact IH.
Qed.

Lemma fixed_mode_records :
  forall (input : list Parcel) (options : Options),
    or_default (useNaturalBoundaries options) false = false ->
    let a := assignBlockIds input options in
    let size := or_default (blockSize options) defaultBlockSize in
    Permutation (map result_parcel (parcels a)) input
    /\ Forall (fun r =>
                 result_parsed r = parseAddress (address (result_parcel r))
                 /\ parse_error r = unparsable (result_parcel r)
                 /\ block_id r = generateBlockIdFromAddress (result_parsed r) size)
         (parcels a).
Proof.
  intros input options Hfixed a size.
  destruct (assignBlockIds_fixed_records input options Hfixed) as (grouped & Hperm & Hrec).
  fold a size in Hrec. rewrite Hrec.
  destruct (parsed_parcels_parse input) as (Hparse & Hmap).
  split.
  - rewrite map_app, !map_map. cbn [error_result fixed_result result_parcel].
    rewrite map_id.
    rewrite (Permutation_map parcel Hperm), Hmap. apply filter_partition.
  - apply Forall_app. split.
    + apply Forall_forall. intros r Hr. apply in_map_iff in Hr.
      destruct Hr as (p & <- & Hp). apply filter_In in Hp. destruct Hp as [_ Hu].
      cbn [error_result result_parsed result_parcel parse_error block_id].
      rewrite Hu. unfold unparsable in Hu.
      destruct (parseAddress (address p)); [discriminate|]. auto.
    + apply Forall_forall. intros r Hr. apply in_map_iff in Hr.
      destruct Hr as (x & <- & Hx).
      assert (Hx' : In x (parsed_parcels input))
        by (eapply Permutation_in; [exact Hperm|exact Hx]).
      rewrite Forall_forall in Hparse. specialize (Hparse x Hx').
      cbn [fixed_result result_parsed result_parcel parse_error block_id].
      unfold unparsable. rewrite Hparse. auto.
Qed.






Lemma filter_perm {A : Type} (f : A -> bool) (l l' : list A) :
  Permutation l l' -> Permutation (filter f l) (filter f l').
Proof.
  induction 1 as [|x l l' _ IH|x y l|l l' l'' _ IH1 _ IH2]; simpl.
  - constructor.
  - destruct (f x); [constructor|]; exact IH.
  - destruct (f x), (f y); try reflexivity. apply perm_swap.
  - etransitivity; eassumption.
Qed.






(** ** Natural boundary mode *)








Lemma detect_members (input : list Parcel) (g : Z) :
  List.concat (map addresses (detectBlockBoundaries input g))
  = sort_by_number (parse_and_filter input).
Proof.
  unfold detectBlockBoundaries.
  destruct (sort_by_number (parse_and_filter input)) as [|first rest]; [reflexivity|].
  apply (walk_groups g rest []
           {| start := number_of first; end_ := number_of first;
              addresses := [first] |} (number_of first)).
  - constructor.
  - unfold is_run. simpl. auto.
  - reflexivity.
  - simpl. exact I.
Qed.










(** ** The members of a boundary group *)

Lemma strongly_sorted_segment {A : Type} (R : A -> A -> Prop) (l1 l l2 : list A) :
  StronglySorted R (l1 ++ l ++ l2) -> StronglySorted R l.
Proof.
  induction l1 as [|a l1 IH]; simpl.
  - induction l as [|a l IH]; simpl; intros H; [constructor|].
    apply StronglySorted_inv in H. destruct H as [H1 H2].
    constructor; [apply IH, H1|]. apply Forall_app in H2. apply H2.
  - intros H. apply StronglySorted_inv in H. apply IH, H.
Qed.

Lemma sorted_below_last (l : list ParsedParcel) :
  forall y x,
    StronglySorted by_number (y :: l) -> In x (y :: l) ->
    number_of x <= number_of (last l y).
Proof.
  induction l as [|z l IH]; intros y x Hs Hx.
  - destruct Hx as [<-|[]]. simpl. lia.
  - apply StronglySorted_inv in Hs. destruct Hs as [Hs Hy].
    assert (E : last (z :: l) y = last l z).
    { destruct l as [|w l]; [reflexivity|].
      change (last (w :: l) y = last (w :: l) z). apply last_default. }
    rewrite E. destruct Hx as [<-|Hx].
    + inversion Hy as [|? ? Hyz _]; subst. unfold by_number in Hyz.
      pose proof (IH z z Hs (or_introl eq_refl)). lia.
    + apply IH; assumption.
Qed.

Lemma parse_and_filter_members (input : list Parcel) (x : ParsedParcel) :
  In x (parse_and_filter input) ->
  In (parcel x) input
  /\ parseAddress (address (parcel x)) = Some (parsed x)
  /\ number_of x <> 0.
Proof.
  induction input as [|p input IH]; simpl; [contradiction|].
  destruct (parseAddress (address p)) as [a|] eqn:E.
  - destruct (houseNumber a =? 0) eqn:Ez.
    + intros H. destruct (IH H) as (H1 & H2). auto.
    + intros [<-|H].
      * simpl. split; [auto|]. split; [exact E|].
        unfold number_of. simpl. apply Z.eqb_neq, Ez.
      * destruct (IH H) as (H1 & H2). auto.
  - intros H. destruct (IH H) as (H1 & H2). auto.
Qed.

(** X8.  Every member of a boundary group is a parcel of the input whose
    address parses with a house number other than [0], and that number lies
    between the [start] and the [end] of the group. *)
Theorem detectBlockBoundaries_members :
  forall (input : list Parcel) (g : Z) (b : Boundary) (x : ParsedParcel),
    In b (detectBlockBoundaries input g) ->
    In x (addresses b) ->
    start b <= number_of x <= end_ b
    /\ number_of x <> 0
    /\ In (parcel x) input
    /\ parseAddress (address (parcel x)) = Some (parsed x).
Proof.
  intros input g b x Hb Hx.
  pose proof (detect_members input g) as Hcat.
  destruct (sort_by_number_sorted (parse_and_filter input)) as [Hs Hp].
  assert (Hss : StronglySorted by_number (sort_by_number (parse_and_filter input))).
  { apply Sorted_StronglySorted; [|exact Hs].
    intros u v w. unfold by_number. lia. }
  assert (Hruns : Forall (is_run g) (detectBlockBoundaries input g)).
  { unfold detectBlockBoundaries.
    destruct (sort_by_number (parse_and_filter input)) as [|first rest]; [constructor|].
    apply (walk_groups g rest []
             {| start := number_of first; end_ := number_of first;
                addresses := [first] |} (number_of first)).
    - constructor.
    - unfold is_run. simpl. auto.
    - reflexivity.
    - simpl. exact I. }
  destruct (in_split b _ Hb) as (g1 & g2 & Hsplit).
  rewrite Hsplit, map_app, List.concat_app in Hcat. simpl in Hcat.
  rewrite <- Hcat in Hss. apply strongly_sorted_segment in Hss.
  rewrite Forall_forall in Hruns. specialize (Hruns b Hb). unfold is_run in Hruns.
  assert (Hin : In x (parse_and_filter input)).
  { eapply Permutation_in; [exact Hp|]. rewrite <- Hcat.
    apply in_or_app. right. apply in_or_app. left. exact Hx. }
  destruct (parse_and_filter_members input x Hin) as (H1 & H2 & H3).
  split; [|auto].
  destruct (addresses b) as [|y l]; [contradiction|].
  destruct Hruns as (Hstart & Hend & _). rewrite Hstart, Hend. split.
  - destruct Hx as [<-|Hx]; [lia|].
    apply StronglySorted_inv in Hss. destruct Hss as [_ Hy].
    rewrite Forall_forall in Hy. exact (Hy x Hx).
  - apply sorted_below_last; assumption.
Qed.

Definition woodward_1255 : ParsedParcel :=
  {| parcel := {| parcel_id := "008"; address := JString "1255 Woodward Ave" |};
     parsed := {| houseNumber := 1255; directional := None;
                  streetName := "woodward"; streetType := Some "AVE";
                  fullStreet := "WOODWARD AVE" |} |}.

Definition woodward_group : Boundary :=
  hd {| start := 0; end_ := 0; addresses := [] |}
    (detectBlockBoundaries woodward_parcels 50).

Lemma detectBlockBoundaries_members_witness :
  start woodward_group <= number_of woodward_1255 <= end_ woodward_group.
Proof.
  refine (proj1 (detectBlockBoundaries_members woodward_parcels 50
                   woodward_group woodward_1255 _ _)).
  - vm_compute. left. reflexivity.
  - vm_compute. do 7 right. left. reflexivity.
Defined.

(** * The block identifier as a key *)

Import SalesImport.

(** ** Decimal texts *)





(** ** Splitting an identifier *)

















(** * Further properties of the geometric detector *)

Import Geometric Detection.

Lemma all_chars_app (p : ascii -> bool) (s t : string) :
  all_chars p (s ++ t) = (all_chars p s && all_chars p t)%bool.
Proof.
  induction s as [|c s IH]; simpl; [reflexivity|].
  rewrite IH, andb_assoc. reflexivity.
Qed.

Lemma join_underscore_clean (parts : list string) :
  Forall (fun x => all_chars is_name_char x = true) parts ->
  all_chars is_name_char (join_underscore parts) = true.
Proof.
  induction 1 as [|x parts Hx Hparts IH]; [reflexivity|].
  destruct parts as [|y parts]; [exact Hx|].
  change (join_underscore (x :: y :: parts))
    with (x ++ "_" ++ join_underscore (y :: parts))%string.
  rewrite !all_chars_app, Hx, IH. reflexivity.
Qed.

Lemma geometric_normalize_clean (name : jsval) :
  all_chars is_name_char (normalizeStreetName name) = true.
Proof. exact (normalize_clean name). Qed.

Lemma geometric_normalize_twice (name : jsval) :
  normalizeStreetName (JString (normalizeStreetName name)) = normalizeStreetName name.
Proof. exact (clean_normalize _ (normalize_clean name)). Qed.

(** X11.  A geometric block identifier has characters of [[a-z0-9_]] only,
    and it is the identifier of the normalised names: case, outer white
    space and punctuation of the three names do not matter. *)
Theorem generateBlockId_normalised :
  forall street fromCross toCross : jsval,
    all_chars is_name_char (generateBlockId street fromCross toCross) = true
    /\ generateBlockId (JString (normalizeStreetName street))
         (JString (normalizeStreetName fromCross))
         (JString (normalizeStreetName toCross))
       = generateBlockId street fromCross toCross.
Proof.
  intros street fromCross toCross. split.
  - unfold generateBlockId. apply join_underscore_clean.
    apply Forall_forall. intros x Hx. apply filter_In in Hx. destruct Hx as [Hx _].
    apply in_map_iff in Hx. destruct Hx as (n & <- & _).
    apply geometric_normalize_clean.
  - unfold generateBlockId. cbn [map]. rewrite !geometric_normalize_twice. reflexivity.
Qed.

(** ** Ordering the intersections *)

Section Ordering.
Context {T : Turf} {TL : TurfLines T}.

Definition by_place (a b : Located Point) : Prop := (along a <= along b)%Q.

Lemma insert_located_perm (x : Located Point) (l : list (Located Point)) :
  Permutation (insert_located x l) (x :: l).
Proof.
  induction l as [|y l IH]; simpl; [reflexivity|].
  destruct (Qle_bool (along x) (along y)); [reflexivity|].
  rewrite IH. apply perm_swap.
Qed.

Lemma insert_located_sorted (x : Located Point) (l : list (Located Point)) :
  Sorted by_place l -> Sorted by_place (insert_located x l).
Proof.
  induction 1 as [|y l Hs IH Hd]; simpl.
  - repeat constructor.
  - destruct (Qle_bool (along x) (along y)) eqn:E.
    + apply Qle_bool_iff in E. repeat constructor; assumption.
    + assert (Hyx : (along y <= along x)%Q).
      { apply Qlt_le_weak, Qnot_le_lt. intros H. apply Qle_bool_iff in H. congruence. }
      constructor; [exact IH|].
      destruct l as [|z l]; simpl.
      * constructor. exact Hyx.
      * destruct (Qle_bool (along x) (along z)); constructor.
        -- exact Hyx.
        -- inversion Hd; assumption.
Qed.

Lemma sort_located_sorted (l : list (Located Point)) :
  Sorted by_place (sort_located l) /\ Permutation (sort_located l) l.
Proof.
  induction l as [|x l [IH1 IH2]]; simpl.
  - split; constructor.
  - split; [apply insert_located_sorted, IH1|].
    rewrite insert_located_perm. constructor. exact IH2.
Qed.

Lemma locate_all_intersections (line : Line) (l : list (Intersection Point)) :
  forall located,
    locate_all line l = Some located ->
    map intersection located = l
    /\ Forall (fun x => exists n,
                   turf_nearestPointOnLine line (point (intersection x)) = Some n
                   /\ along x = or_zero (location n)) located.
Proof.
  induction l as [|i l IH]; simpl; intros located.
  - intros E. injection E as <-. split; constructor.
  - destruct (turf_nearestPointOnLine line (point i)) as [n|] eqn:En; [|discriminate].
    destruct (locate_all line l) as [rest|]; [|discriminate].
    intros E. injection E as <-. destruct (IH rest eq_refl) as (H1 & H2).
    simpl. rewrite H1. split; [reflexivity|]. constructor; [|exact H2].
    exists n. simpl. auto.
Qed.

(** X12.  When [sortIntersectionsAlongStreet] returns, its result holds the
    intersections it was given, each once, in the order of their projected
    place along the street, and each place is the [location] of the nearest
    point on the line, or [0] where that is missing. *)
Theorem sortIntersectionsAlongStreet_sorted :
  forall (street : Street Line) (intersections : list (Intersection Point))
         (sorted : list (Located Point)),
    sortIntersectionsAlongStreet street intersections = Some sorted ->
    Permutation (map intersection sorted) intersections
    /\ Sorted by_place sorted
    /\ Forall (fun x => exists n,
                   turf_nearestPointOnLine (street_geometry street)
                     (point (intersection x)) = Some n
                   /\ along x = or_zero (location n)) sorted.
Proof.
  intros street intersections sorted. unfold sortIntersectionsAlongStreet.
  destruct intersections as [|i l].
  - intros E. injection E as <-. repeat split; constructor.
  - destruct (locate_all (street_geometry street) (i :: l)) as [located|] eqn:E;
      [|discriminate].
    intros H. injection H as <-.
    destruct (locate_all_intersections _ _ _ E) as (H1 & H2).
    destruct (sort_located_sorted located) as (H3 & H4).
    split; [|split; [exact H3|]].
    + rewrite (Permutation_map intersection H4), H1. reflexivity.
    + rewrite Forall_forall in *. intros x Hx. apply H2.
      eapply Permutation_in; [exact H4|exact Hx].
Qed.

End Ordering.

(** Crossings on the straight line: a cross street is a point of the line,
    given as a line of length [0]. *)
Definition line_crossings : TurfLines line_turf :=
  @Build_TurfLines line_turf
    (fun mainStreet crossStreet =>
       let line : Z * Z := street_geometry mainStreet in
       let at_metres : Z := fst (street_geometry crossStreet : Z * Z) in
       if ((fst line <=? at_metres) && (at_metres <=? snd line))%bool
       then Some [at_metres] else Some [])
    (fun line pt =>
       Some {| dist := Some 0%Q;
               location := Some (((pt : Z) - fst (line : Z * Z)) # 1000) |}).

Lemma sortIntersectionsAlongStreet_sorted_witness :
  exists sorted,
    sortIntersectionsAlongStreet (T := line_turf) (TL := line_crossings) main_street
      [crossing "C" 70; crossing "A" 10; crossing "B" 40] = Some sorted
    /\ map intersection sorted = [crossing "A" 10; crossing "B" 40; crossing "C" 70]
    /\ Permutation (map intersection sorted)
         [crossing "C" 70; crossing "A" 10; crossing "B" 40].
Proof.
  eexists. split; [vm_compute; reflexivity|]. split; [reflexivity|].
  refine (proj1 (sortIntersectionsAlongStreet_sorted (T := line_turf)
                   (TL := line_crossings) main_street
                   [crossing "C" 70; crossing "A" 10; crossing "B" 40] _ _)).
  vm_compute. reflexivity.
Defined.

(** ** The blocks of many streets *)

Section ManyStreets.
Context {T : Turf} {TL : TurfLines T}.


Lemma findIntersections_none (street : Street Line) :
  findIntersections street [] = [].
Proof. reflexivity. Qed.




End ManyStreets.


(** * Properties of the block analytics *)

Import Analytics.

(** ** The median *)






(** ** The counters *)

Section Counters.
Variable parse_date : string -> Date.
Variable twoYearsAgo : Z.
Variable iso_day : Z -> string.

(** What holds of the counters after [n] parcels. *)
Definition counted (n : Z) (t : Tally) : Prop :=
  owner_occupied_count t + city_owned_count t + land_bank_owned_count t
  + investor_owned_count t = n
  /\ 0 <= owner_occupied_count t /\ 0 <= city_owned_count t
  /\ 0 <= land_bank_owned_count t /\ 0 <= investor_owned_count t
  /\ 0 <= residential_parcels t /\ 0 <= commercial_parcels t
  /\ residential_parcels t + commercial_parcels t <= n
  /\ 0 <= occupied_buildings t /\ 0 <= vacant_buildings t
  /\ 0 <= condemned_buildings t
  /\ occupied_buildings t + vacant_buildings t + condemned_buildings t
     <= total_buildings t
  /\ total_buildings t <= n
  /\ 0 <= vacant_parcels t <= n
  /\ 0 <= recent_sales_count t <= n
  /\ 0 <= tax_delinquent_count t <= n
  /\ Z.of_nat (List.length (recentSalePrices t)) <= recent_sales_count t.

Lemma push_positive_length (values : list Q) (x : option Q) :
  (List.length values <= List.length (push_positive values x) <= S (List.length values))%nat.
Proof.
  unfold push_positive, push. destruct x as [q|]; [|lia].
  destruct (negb (Qle_bool q 0)); [rewrite length_app; simpl|]; lia.
Qed.

Lemma b2z_bounds (b : bool) : 0 <= b2z b <= 1.
Proof. destruct b; simpl; lia. Qed.

Lemma ownership_once (o : Ownership) :
  b2z (is_owner OwnerOccupied o) + b2z (is_owner CityOwned o)
  + b2z (is_owner LandBankOwned o) + b2z (is_owner InvestorOwned o) = 1.
Proof. destruct o; reflexivity. Qed.

Lemma class_once (r c : bool) : b2z r + b2z (negb r && c) <= 1.
Proof. destruct r, c; simpl; lia. Qed.

Lemma status_once (building o v c : bool) :
  b2z (building && o) + b2z (building && negb (building && o) && v)
  + b2z (building && negb (building && o)
         && negb (building && negb (building && o) && v) && c)
  <= b2z building.
Proof. destruct building, o, v, c; simpl; lia. Qed.

Lemma count_parcel_counted (n : Z) (t : Tally) (props : Properties) :
  counted n t -> counted (n + 1) (count_parcel parse_date twoYearsAgo t props).
Proof.
  unfold counted, count_parcel.
  cbn [residential_parcels commercial_parcels vacant_parcels total_buildings
       occupied_buildings vacant_buildings condemned_buildings recent_sales_count
       tax_delinquent_count owner_occupied_count investor_owned_count
       city_owned_count land_bank_owned_count recentSalePrices].
  pose proof (push_positive_length (recentSalePrices t) (amt_sale_price props)) as Hp.
  pose proof (ownership_once (ownership props)) as Ho.
  pose proof (b2z_bounds (is_owner OwnerOccupied (ownership props))).
  pose proof (b2z_bounds (is_owner CityOwned (ownership props))).
  pose proof (b2z_bounds (is_owner LandBankOwned (ownership props))).
  pose proof (b2z_bounds (is_owner InvestorOwned (ownership props))).
  set (residential := class_starts "1" (property_class props)).
  set (commercial := class_starts "2" (property_class props)).
  pose proof (class_once residential commercial).
  pose proof (b2z_bounds residential).
  pose proof (b2z_bounds (negb residential && commercial)).
  set (building := truthy (building_status props)).
  set (o := is_text "Occupied" (building_status props)).
  set (v := is_text "Vacant" (building_status props)).
  set (c := is_text "Condemned" (building_status props)).
  pose proof (status_once building o v c).
  pose proof (b2z_bounds building).
  pose proof (b2z_bounds (building && o)).
  pose proof (b2z_bounds (building && negb (building && o) && v)).
  pose proof (b2z_bounds (building && negb (building && o)
                          && negb (building && negb (building && o) && v) && c)).
  set (vacant := (is_text "336" (property_class props)
                  || is_text "VACANT" (use_code props) || v)%bool).
  pose proof (b2z_bounds vacant).
  set (delinquent := (is_text "Delinquent" (tax_status props)
                      || is_text "Delinquent" (tax_status_description props))%bool).
  pose proof (b2z_bounds delinquent).
  set (recent := (truthy (sale_date props)
                  && date_after match sale_date props with
                                | Some text => parse_date text
                                | None => None
                                end (Some twoYearsAgo))%bool).
  pose proof (b2z_bounds recent).
  intros Hc.
  assert (Hr : Z.of_nat (List.length
                           (if recent
                            then push_positive (recentSalePrices t) (amt_sale_price props)
                            else recentSalePrices t))
               <= recent_sales_count t + b2z recent).
  { destruct recent; simpl b2z; lia. }
  lia.
Qed.

Lemma fold_counted (l : list Properties) :
  forall (n : Z) (t : Tally),
    counted n t ->
    counted (n + Z.of_nat (List.length l))
      (fold_left (count_parcel parse_date twoYearsAgo) l t).
Proof.
  induction l as [|p l IH]; intros n t H.
  - simpl. rewrite Z.add_0_r. exact H.
  - cbn [fold_left List.length]. rewrite Nat2Z.inj_succ.
    replace (n + Z.succ (Z.of_nat (List.length l)))
      with (n + 1 + Z.of_nat (List.length l)) by lia.
    apply IH, count_parcel_counted, H.
Qed.

(** X15.  In the analytics of a block the four ownership counters add up to
    the number of parcels; the occupied, vacant and condemned buildings are
    at most the buildings, which are at most the parcels; and the
    residential and commercial parcels together, the vacant parcels, the
    recent sales and the tax delinquent parcels are each at most the number
    of parcels. *)
Theorem calculateBlockAnalytics_counters :
  forall (blockParcels : list Properties) (a : BlockAnalytics),
    calculateBlockAnalytics parse_date twoYearsAgo iso_day blockParcels = Some a ->
    total_parcels a = Z.of_nat (List.length blockParcels)
    /\ counted (total_parcels a) (tally a).
Proof.
  intros blockParcels a. unfold calculateBlockAnalytics.
  pose proof (fold_counted blockParcels 0 empty_tally) as H.
  assert (H0 : counted 0 empty_tally) by (unfold counted; simpl; lia).
  specialize (H H0). rewrite Z.add_0_l in H.
  destruct (lastSaleDate _) as [[time|]|]; try discriminate;
    intros E; injection E as <-; split; try reflexivity; exact H.
Qed.

End Counters.

(** ** The last sale date *)

Section LastSale.
Variable parse_date : string -> Date.
Variable twoYearsAgo : Z.
Variable iso_day : Z -> string.

(** The sale date of a parcel that has one. *)
Definition sale_of (props : Properties) : option Date :=
  match sale_date props with
  | Some text => if String.eqb text "" then None else Some (parse_date text)
  | None => None
  end.

(** The sale date of the first parcel that has one. *)
Fixpoint first_sale (l : list Properties) : option Date :=
  match l with
  | [] => None
  | p :: rest =>
      match sale_of p with
      | Some d => Some d
      | None => first_sale rest
      end
  end.

(** [time] is the latest valid sale time of [l]. *)
Definition latest_sale (l : list Properties) (time : Z) : Prop :=
  In (Some (Some time)) (map sale_of l)
  /\ forall x, In (Some (Some x)) (map sale_of l) -> x <= time.

Lemma last_of_step (t : Tally) (p : Properties) :
  lastSaleDate (count_parcel parse_date twoYearsAgo t p)
  = match sale_of p with
    | None => lastSaleDate t
    | Some d =>
        match lastSaleDate t with
        | None => Some d
        | Some last => if date_after d last then Some d else Some last
        end
    end.
Proof.
  unfold count_parcel, sale_of, truthy. cbn [lastSaleDate].
  destruct (sale_date p) as [text|]; [|reflexivity].
  destruct (String.eqb text ""); reflexivity.
Qed.

Lemma last_invalid (l : list Properties) :
  forall t,
    lastSaleDate t = Some None ->
    lastSaleDate (fold_left (count_parcel parse_date twoYearsAgo) l t) = Some None.
Proof.
  induction l as [|p l IH]; intros t H; [exact H|].
  cbn [fold_left]. apply IH. rewrite last_of_step, H.
  destruct (sale_of p) as [[x|]|]; reflexivity.
Qed.

Lemma last_valid (l : list Properties) :
  forall t m,
    lastSaleDate t = Some (Some m) ->
    exists m',
      lastSaleDate (fold_left (count_parcel parse_date twoYearsAgo) l t)
      = Some (Some m')
      /\ m <= m'
      /\ (m' = m \/ In (Some (Some m')) (map sale_of l))
      /\ forall x, In (Some (Some x)) (map sale_of l) -> x <= m'.
Proof.
  induction l as [|p l IH]; intros t m H.
  - exists m. simpl. split; [exact H|]. split; [lia|]. split; [auto|contradiction].
  - cbn [fold_left map].
    pose proof (last_of_step t p) as Hstep. rewrite H in Hstep.
    destruct (sale_of p) as [[x|]|] eqn:Es.
    + cbn [date_after] in Hstep. destruct (m <? x) eqn:Ex.
      * apply Z.ltb_lt in Ex.
        destruct (IH _ x Hstep) as (m' & H1 & H2 & H3 & H4).
        exists m'. split; [exact H1|]. split; [lia|]. split.
        -- right. destruct H3 as [->|H3]; [left; reflexivity|right; exact H3].
        -- intros y [E|Hy]; [injection E as <-; lia|apply H4, Hy].
      * apply Z.ltb_ge in Ex.
        destruct (IH _ m Hstep) as (m' & H1 & H2 & H3 & H4).
        exists m'. split; [exact H1|]. split; [lia|]. split.
        -- destruct H3 as [->|H3]; [left; reflexivity|right; right; exact H3].
        -- intros y [E|Hy]; [injection E as <-; lia|apply H4, Hy].
    + cbn [date_after] in Hstep.
      destruct (IH _ m Hstep) as (m' & H1 & H2 & H3 & H4).
      exists m'. split; [exact H1|]. split; [lia|]. split.
      * destruct H3 as [->|H3]; [left; reflexivity|right; right; exact H3].
      * intros y [E|Hy]; [discriminate|apply H4, Hy].
    + destruct (IH _ m Hstep) as (m' & H1 & H2 & H3 & H4).
      exists m'. split; [exact H1|]. split; [lia|]. split.
      * destruct H3 as [->|H3]; [left; reflexivity|right; right; exact H3].
      * intros y [E|Hy]; [discriminate|apply H4, Hy].
Qed.

Lemma last_of_fold (l : list Properties) :
  forall t,
    lastSaleDate t = None ->
    match first_sale l with
    | None =>
        lastSaleDate (fold_left (count_parcel parse_date twoYearsAgo) l t) = None
    | Some None =>
        lastSaleDate (fold_left (count_parcel parse_date twoYearsAgo) l t) = Some None
    | Some (Some _) =>
        exists m,
          lastSaleDate (fold_left (count_parcel parse_date twoYearsAgo) l t)
          = Some (Some m)
          /\ latest_sale l m
    end.
Proof.
  induction l as [|p l IH]; intros t H; [exact H|].
  cbn [fold_left first_sale].
  pose proof (last_of_step t p) as Hstep. rewrite H in Hstep.
  destruct (sale_of p) as [[x|]|] eqn:Es.
  - destruct (last_valid l _ x Hstep) as (m & H1 & H2 & H3 & H4).
    exists m. split; [exact H1|]. unfold latest_sale. cbn [map]. rewrite Es. split.
    + destruct H3 as [->|H3]; [left; reflexivity|right; exact H3].
    + intros y [E|Hy]; [injection E as <-; lia|apply H4, Hy].
  - apply last_invalid. exact Hstep.
  - specialize (IH _ Hstep). destruct (first_sale l) as [[y|]|]; try exact IH.
    destruct IH as (m & H1 & H2 & H3). exists m. split; [exact H1|].
    unfold latest_sale. cbn [map]. rewrite Es. split; [right; exact H2|].
    intros z [E|Hz]; [discriminate|apply H3, Hz].
Qed.

(** X16.  [calculateBlockAnalytics] throws exactly when the first parcel
    that has a sale date has one that is no valid date; a date that is not
    valid is ignored after a valid one.  When it returns, [last_sale_date]
    is unset if no parcel has a sale date, and otherwise the day of the
    latest valid sale date. *)
Theorem calculateBlockAnalytics_last_sale :
  forall blockParcels : list Properties,
    match calculateBlockAnalytics parse_date twoYearsAgo iso_day blockParcels with
    | None => first_sale blockParcels = Some None
    | Some a =>
        match last_sale_date a with
        | None => first_sale blockParcels = None
        | Some day =>
            exists time,
              day = iso_day time /\ latest_sale blockParcels time
              /\ exists first, first_sale blockParcels = Some (Some first)
        end
    end.
Proof.
  intros blockParcels. unfold calculateBlockAnalytics.
  pose proof (last_of_fold blockParcels empty_tally eq_refl) as H.
  destruct (first_sale blockParcels) as [[first|]|].
  - destruct H as (m & -> & Hm). cbn [last_sale_date]. exists m. eauto.
  - rewrite H. reflexivity.
  - rewrite H. reflexivity.
Qed.

End LastSale.

Lemma calculateBlockAnalytics_counters_witness :
  let parse := fun text : string => if String.eqb text "n/a" then None else Some 2024 in
  let house :=
    {| property_class := Some "101"; use_code := None;
       building_status := Some "Occupied"; sale_date := Some "2024-03-01";
       amt_sale_price := Some 90000%Q; tax_status := Some "Delinquent";
       tax_status_description := None; taxpayer_1 := Some "DOE, JANE";
       pct_pre_claimed := Some 100%Q; amt_assessed_value := Some 40000%Q;
       amt_taxable_value := Some 30000%Q; total_square_footage := Some 4000%Q;
       building_square_footage := Some 1200%Q |} in
  let lot :=
    {| property_class := Some "336"; use_code := Some "VACANT";
       building_status := None; sale_date := Some "n/a";
       amt_sale_price := None; tax_status := None;
       tax_status_description := None; taxpayer_1 := Some "City of Detroit";
       pct_pre_claimed := None; amt_assessed_value := None;
       amt_taxable_value := None; total_square_footage := Some 3000%Q;
       building_square_footage := None |} in
  match calculateBlockAnalytics parse 2023 of_Z [house; lot] with
  | Some a => total_parcels a = 2 /\ counted (total_parcels a) (tally a)
  | None => False
  end.
Proof.
  intros parse house lot.
  destruct (calculateBlockAnalytics parse 2023 of_Z [house; lot]) as [a|] eqn:E.
  - exact (calculateBlockAnalytics_counters parse 2023 of_Z [house; lot] a E).
  - vm_compute in E. discriminate.
Defined.

(** * Properties of the client *)

Import ApiClient.

Section RetryFacts.
Context {Json Error : Type}.
Variable service : nat -> Outcome Json Error.

Definition failed (n : nat) : Prop := exists e, service n = Thrown e.

Lemma retry_from_spec (left : nat) :
  forall attempt,
    let '(result, made) := retry_from service attempt left in
    (attempt < made <= attempt + left + 1)%nat
    /\ (forall n, (attempt <= n < made - 1)%nat -> failed n)
    /\ result = service (made - 1)
    /\ (failed (made - 1) -> made = (attempt + left + 1)%nat).
Proof.
  induction left as [|left IH]; intros attempt; cbn [retry_from].
  - destruct (service attempt) as [data|error] eqn:E.
    + replace (S attempt - 1)%nat with attempt by lia.
      split; [lia|]. split; [intros n Hn; lia|]. split; [symmetry; exact E|].
      intros (e & He). congruence.
    + replace (S attempt - 1)%nat with attempt by lia.
      split; [lia|]. split; [intros n Hn; lia|]. split; [symmetry; exact E|].
      intros _. lia.
  - destruct (service attempt) as [data|error] eqn:E.
    + replace (S attempt - 1)%nat with attempt by lia.
      split; [lia|]. split; [intros n Hn; lia|]. split; [symmetry; exact E|].
      intros (e & He). congruence.
    + specialize (IH (S attempt)).
      destruct (retry_from service (S attempt) left) as [result made].
      destruct IH as (H1 & H2 & H3 & H4).
      split; [lia|]. split; [|split; [exact H3|intros Hf; specialize (H4 Hf); lia]].
      intros n Hn. destruct (Nat.eq_dec n attempt) as [->|Hne].
      * exists error. exact E.
      * apply H2. lia.
Qed.

(** X17.  [fetchWithRetry] makes at least one and at most [retries + 1]
    requests, every request before the last one failed, and the result is
    the outcome of the last request: the body of the first request that
    succeeds, or, after [retries + 1] failures, the error of the last
    one. *)
Theorem fetchWithRetry_requests :
  forall retries : Z,
    let result := fst (fetchWithRetry service retries) in
    let made := snd (fetchWithRetry service retries) in
    (1 <= made <= Z.to_nat retries + 1)%nat
    /\ (forall n, (n < made - 1)%nat -> failed n)
    /\ result = service (made - 1)
    /\ (failed (made - 1) -> made = (Z.to_nat retries + 1)%nat).
Proof.
  intros retries. unfold fetchWithRetry.
  pose proof (retry_from_spec (Z.to_nat retries) 0) as H.
  destruct (retry_from service 0 (Z.to_nat retries)) as [result made].
  cbn [fst snd]. destruct H as (H1 & H2 & H3 & H4).
  split; [lia|]. split; [intros n Hn; apply H2; lia|]. split; [exact H3|exact H4].
Qed.

End RetryFacts.


(** * The statistics of the blocks, in one run and over the chunks *)

Import Address SalesImport.

Section MapSpec.
Context {K V : Type} (eqb : K -> K -> bool).
Hypothesis eqb_spec : forall a b : K, reflect (a = b) (eqb a b).

Lemma map_get_set (k k' : K) (v : V) (m : list (K * V)) :
  map_get eqb k' (map_set eqb k v m)
  = if eqb k' k then Some v else map_get eqb k' m.
Proof.
  induction m as [|[k0 v0] m IH]; simpl; [reflexivity|].
  destruct (eqb_spec k k0) as [->|Hne]; simpl.
  - destruct (eqb_spec k' k0); reflexivity.
  - destruct (eqb_spec k' k0) as [->|Hne'].
    + destruct (eqb_spec k0 k); [congruence|reflexivity].
    + exact IH.
Qed.

Lemma map_get_absent (k : K) (m : list (K * V)) :
  ~ In k (map fst m) -> map_get eqb k m = None.
Proof.
  induction m as [|[k0 v0] m IH]; simpl; intros H; [reflexivity|].
  destruct (eqb_spec k k0) as [->|Hne]; [tauto|apply IH; tauto].
Qed.

Lemma map_set_absent (k : K) (v : V) (m : list (K * V)) :
  ~ In k (map fst m) -> map_set eqb k v m = (m ++ [(k, v)])%list.
Proof.
  induction m as [|[k0 v0] m IH]; simpl; intros H; [reflexivity|].
  destruct (eqb_spec k k0) as [->|Hne]; [tauto|]. rewrite IH; tauto.
Qed.

Lemma map_set_keys (k : K) (v : V) (m : list (K * V)) :
  map fst (map_set eqb k v m)
  = match map_get eqb k m with
    | Some _ => map fst m
    | None => (map fst m ++ [k])%list
    end.
Proof.
  induction m as [|[k0 v0] m IH]; simpl; [reflexivity|].
  destruct (eqb_spec k k0) as [->|Hne]; simpl; [reflexivity|].
  rewrite IH. destruct (map_get eqb k m); reflexivity.
Qed.

Lemma map_get_present (k : K) (v : V) (m : list (K * V)) :
  map_get eqb k m = Some v -> In k (map fst m).
Proof.
  induction m as [|[k0 v0] m IH]; simpl; [discriminate|].
  destruct (eqb_spec k k0) as [->|Hne]; [left; reflexivity|right; auto].
Qed.

Lemma map_set_nodup (k : K) (v : V) (m : list (K * V)) :
  NoDup (map fst m) -> NoDup (map fst (map_set eqb k v m)).
Proof.
  intros H. rewrite map_set_keys.
  destruct (map_get eqb k m) as [w|] eqn:E; [exact H|].
  apply (Permutation_NoDup (l := k :: map fst m)).
  - apply Permutation_cons_append.
  - constructor; [|exact H].
    intros Hin. clear H.
    induction m as [|[k0 v0] m IH]; simpl in *; [contradiction|].
    destruct (eqb_spec k k0) as [->|Hne]; [discriminate|].
    destruct Hin as [->|Hin]; [congruence|auto].
Qed.

Lemma map_set_forall (P : K * V -> Prop) (k : K) (v : V) (m : list (K * V)) :
  Forall P m -> P (k, v) -> Forall P (map_set eqb k v m).
Proof.
  intros Hm Hv. induction m as [|[k' w] m IH]; simpl.
  - constructor; [exact Hv|constructor].
  - inversion Hm; subst. destruct (eqb k k').
    + constructor; assumption.
    + constructor; [assumption|apply IH; assumption].
Qed.
End MapSpec.

Lemma key_eqb_spec (a b : option string) : reflect (a = b) (key_eqb a b).
Proof.
  destruct a as [x|], b as [y|]; simpl.
  - destruct (String.eqb_spec x y); constructor; congruence.
  - constructor; discriminate.
  - constructor; discriminate.
  - constructor; reflexivity.
Qed.

(** ** Count, smallest and largest house number *)

Definition stats_of (s : option BlockStats) : option (Z * num * num) :=
  option_map (fun s => (count s, minNumber s, maxNumber s)) s.

Definition totals_of (s : option BlockTotals) : option (Z * num * num) :=
  option_map (fun s => (totalCount s, totalMin s, totalMax s)) s.

(** The statistics [u] added to the statistics [t], as both loops do it:
    a block that is not yet known starts from [0], [Infinity] and
    [-Infinity]. *)
Definition stats_join (t u : option (Z * num * num)) : option (Z * num * num) :=
  match u with
  | None => t
  | Some (c, lo, hi) =>
      match t with
      | None => Some (0 + c, num_min PosInf lo, num_max NegInf hi)
      | Some (c0, lo0, hi0) => Some (c0 + c, num_min lo0 lo, num_max hi0 hi)
      end
  end.

Definition stats_one (n : Z) : option (Z * num * num) := Some (1, Fin n, Fin n).

Definition house_stats (l : list Z) : option (Z * num * num) :=
  fold_left (fun t n => stats_join t (stats_one n)) l None.

Lemma num_min_comm (a b : num) : num_min a b = num_min b a.
Proof. destruct a, b; simpl; try reflexivity. f_equal. lia. Qed.

Lemma num_max_comm (a b : num) : num_max a b = num_max b a.
Proof. destruct a, b; simpl; try reflexivity. f_equal. lia. Qed.

Lemma num_min_assoc (a b c : num) : num_min (num_min a b) c = num_min a (num_min b c).
Proof. destruct a, b, c; simpl; try reflexivity. f_equal. lia. Qed.

Lemma num_max_assoc (a b c : num) : num_max (num_max a b) c = num_max a (num_max b c).
Proof. destruct a, b, c; simpl; try reflexivity. f_equal. lia. Qed.

Lemma num_min_inf (a : num) : num_min PosInf a = a.
Proof. destruct a; reflexivity. Qed.

Lemma num_max_inf (a : num) : num_max NegInf a = a.
Proof. destruct a; reflexivity. Qed.

Lemma stats_join_none (u : option (Z * num * num)) : stats_join None u = u.
Proof.
  destruct u as [[[c lo] hi]|]; [|reflexivity]. unfold stats_join.
  rewrite num_min_inf, num_max_inf. reflexivity.
Qed.

Lemma stats_join_comm (t u : option (Z * num * num)) : stats_join t u = stats_join u t.
Proof.
  destruct t as [[[c lo] hi]|], u as [[[c' lo'] hi']|];
    rewrite ?stats_join_none; try reflexivity.
  unfold stats_join. rewrite (num_min_comm lo), (num_max_comm hi), (Z.add_comm c).
  reflexivity.
Qed.

Lemma stats_join_assoc (t u w : option (Z * num * num)) :
  stats_join (stats_join t u) w = stats_join t (stats_join u w).
Proof.
  destruct w as [[[c2 lo2] hi2]|]; [|reflexivity].
  destruct u as [[[c1 lo1] hi1]|]; [|rewrite stats_join_none; reflexivity].
  destruct t as [[[c0 lo0] hi0]|].
  - unfold stats_join. rewrite num_min_assoc, num_max_assoc, Z.add_assoc. reflexivity.
  - rewrite !stats_join_none. reflexivity.
Qed.

Lemma house_stats_from (l : list Z) :
  forall t,
    fold_left (fun t n => stats_join t (stats_one n)) l t
    = stats_join t (house_stats l).
Proof.
  unfold house_stats. induction l as [|n l IH]; intros t; cbn [fold_left].
  - reflexivity.
  - rewrite (IH (stats_join t (stats_one n))), (IH (stats_join None (stats_one n))).
    rewrite stats_join_none, stats_join_assoc. reflexivity.
Qed.

Lemma house_stats_cons (n : Z) (l : list Z) :
  house_stats (n :: l) = stats_join (stats_one n) (house_stats l).
Proof.
  unfold house_stats at 1. cbn [fold_left].
  rewrite house_stats_from, stats_join_none. reflexivity.
Qed.

Lemma house_stats_app (l1 l2 : list Z) :
  house_stats (l1 ++ l2) = stats_join (house_stats l1) (house_stats l2).
Proof.
  induction l1 as [|n l1 IH]; cbn [app].
  - rewrite stats_join_none. reflexivity.
  - rewrite !house_stats_cons, IH, stats_join_assoc. reflexivity.
Qed.

Lemma house_stats_perm (l l' : list Z) :
  Permutation l l' -> house_stats l = house_stats l'.
Proof.
  induction 1 as [|n l l' _ IH|a b l|l1 l2 l3 _ IH1 _ IH2].
  - reflexivity.
  - rewrite !house_stats_cons, IH. reflexivity.
  - rewrite !house_stats_cons, <- !stats_join_assoc.
    rewrite (stats_join_comm (stats_one b)). reflexivity.
  - rewrite IH1. exact IH2.
Qed.

(** What [house_stats] computes. *)
Lemma house_stats_spec (l : list Z) :
  match house_stats l with
  | None => l = []
  | Some (c, lo, hi) =>
      c = Z.of_nat (List.length l)
      /\ exists a b, lo = Fin a /\ hi = Fin b /\ In a l /\ In b l
                     /\ forall n, In n l -> a <= n <= b
  end.
Proof.
  induction l as [|n l IH]; [reflexivity|].
  rewrite house_stats_cons.
  destruct (house_stats l) as [[[c lo] hi]|].
  - destruct IH as (Hc & a & b & -> & -> & Ha & Hb & Hall).
    cbn [stats_join stats_one num_min num_max]. split.
    + rewrite Hc. cbn [List.length]. lia.
    + exists (Z.min n a), (Z.max n b). split; [reflexivity|]. split; [reflexivity|].
      split; [|split].
      * destruct (Z.min_spec n a) as [[_ ->]|[_ ->]]; [left; reflexivity|right; exact Ha].
      * destruct (Z.max_spec n b) as [[_ ->]|[_ ->]]; [right; exact Hb|left; reflexivity].
      * intros k [<-|Hk]; [lia|]. specialize (Hall k Hk). lia.
  - subst l. cbn [stats_join stats_one]. split; [reflexivity|].
    exists n, n. repeat split; try (left; reflexivity);
      destruct H as [<-|[]]; lia.
Qed.

(** ** The statistics of one run with blocks of a fixed size *)

(** The key under which a parsed parcel is counted. *)
Definition stats_key (size : Z) (x : ParsedParcel) : option string :=
  generateBlockIdFromAddress (Some (parsed x)) size.

Definition count_parcel_in (size : Z) (m : StatsMap) (x : ParsedParcel) : StatsMap :=
  update_stats (stats_key size x) (parsed x) m.

Lemma assign_fixed_stats (size : Z) (l : list ParsedParcel) :
  forall (rs : list Result) (m : StatsMap),
    snd (fold_left (assign_fixed size) l (rs, m))
    = fold_left (count_parcel_in size) l m.
Proof.
  induction l as [|x l IH]; intros rs m; cbn [fold_left]; [reflexivity|].
  exact (IH _ _).
Qed.

Lemma fixed_streets_stats (size gap : Z) (groups : StreetGroups) :
  forall st : list Result * StatsMap,
    snd (fold_left (process_street size false gap) groups st)
    = fold_left (count_parcel_in size) (members groups) (snd st).
Proof.
  unfold members. induction groups as [|[k ps] groups IH]; intros [rs m].
  - reflexivity.
  - cbn [fold_left map List.concat snd]. rewrite IH, fold_left_app. f_equal.
    unfold process_street.
    destruct (fold_left (assign_fixed size) ps (rs, m)) as [rs' m'] eqn:E.
    pose proof (assign_fixed_stats size ps rs m) as H. rewrite E in H. exact H.
Qed.

Lemma update_stats_get (k id : option string) (a : ParsedAddress) (m : StatsMap) :
  stats_of (map_get key_eqb k (update_stats id a m))
  = if key_eqb k id
    then stats_join (stats_of (map_get key_eqb k m)) (stats_one (houseNumber a))
    else stats_of (map_get key_eqb k m).
Proof.
  unfold update_stats, map_has.
  destruct (map_get key_eqb id m) as [s|] eqn:E.
  - rewrite E, (map_get_set key_eqb key_eqb_spec).
    destruct (key_eqb_spec k id) as [->|Hne]; [|reflexivity].
    rewrite E. reflexivity.
  - rewrite (map_get_set_same key_eqb key_eqb_refl).
    rewrite (map_set_set_same key_eqb key_eqb_refl).
    rewrite (map_get_set key_eqb key_eqb_spec).
    destruct (key_eqb_spec k id) as [->|Hne]; [|reflexivity].
    rewrite E. reflexivity.
Qed.

Lemma count_parcels_get (size : Z) (k : option string) (l : list ParsedParcel) :
  forall m : StatsMap,
    stats_of (map_get key_eqb k (fold_left (count_parcel_in size) l m))
    = stats_join (stats_of (map_get key_eqb k m))
        (house_stats
           (map number_of (filter (fun x => key_eqb k (stats_key size x)) l))).
Proof.
  induction l as [|x l IH]; intros m; cbn [fold_left filter]; [reflexivity|].
  rewrite IH. unfold count_parcel_in. rewrite update_stats_get.
  destruct (key_eqb k (stats_key size x)); [|reflexivity].
  cbn [map]. rewrite house_stats_cons, stats_join_assoc. reflexivity.
Qed.

(** The keys of the statistics: no key twice, and never the text [null],
    since a block label holds an underscore. *)
Definition has_underscore (s : string) : bool :=
  negb (all_chars (fun c => negb (Ascii.eqb c "_")) s).

Lemma has_underscore_app (s t : string) :
  has_underscore (s ++ "_" ++ t) = true.
Proof.
  unfold has_underscore. induction s as [|c s IH]; [reflexivity|].
  cbn [append all_chars]. destruct (Ascii.eqb c "_"); [reflexivity|exact IH].
Qed.

Definition good_key (k : option string) : Prop := k <> Some "null".

Lemma stats_key_good (size : Z) (x : ParsedParcel) : good_key (stats_key size x).
Proof.
  unfold good_key, stats_key, generateBlockIdFromAddress, blockLabel.
  destruct (houseNumber (parsed x) =? 0); [discriminate|].
  intros H. injection H as H.
  assert (Hu : has_underscore "null" = true)
    by (rewrite <- H; apply has_underscore_app).
  discriminate Hu.
Qed.

Definition clean_keys (m : StatsMap) : Prop :=
  NoDup (map fst m) /\ Forall (fun e => good_key (fst e)) m.

Lemma update_stats_clean (id : option string) (a : ParsedAddress) (m : StatsMap) :
  good_key id -> clean_keys m -> clean_keys (update_stats id a m).
Proof.
  intros Hid [Hn Hg]. unfold update_stats, map_has.
  destruct (map_get key_eqb id m) as [s|] eqn:E.
  - rewrite E. split.
    + apply (map_set_nodup key_eqb key_eqb_spec), Hn.
    + apply map_set_forall; assumption.
  - rewrite (map_get_set_same key_eqb key_eqb_refl).
    rewrite (map_set_set_same key_eqb key_eqb_refl). split.
    + apply (map_set_nodup key_eqb key_eqb_spec), Hn.
    + apply map_set_forall; assumption.
Qed.

Lemma count_parcels_clean (size : Z) (l : list ParsedParcel) (m : StatsMap) :
  clean_keys m -> clean_keys (fold_left (count_parcel_in size) l m).
Proof.
  apply fold_left_invariant. intros m' x. apply update_stats_clean, stats_key_good.
Qed.

(** The object made from a map with clean keys has the entries of the map,
    in their order. *)
Definition as_property (e : option string * BlockStats) : string * BlockStats :=
  (property_name (fst e), snd e).

Lemma property_name_inj (a b : option string) :
  good_key a -> good_key b -> property_name a = property_name b -> a = b.
Proof.
  unfold good_key. destruct a as [x|], b as [y|]; simpl; intros Ha Hb H;
    congruence.
Qed.

Lemma property_names_nodup (m : StatsMap) :
  clean_keys m -> NoDup (map fst (map as_property m)).
Proof.
  intros [Hn Hg]. induction m as [|[k s] m IH]; simpl; [constructor|].
  inversion Hn as [|? ? Hk Hn']; subst. inversion Hg as [|? ? Hgk Hg']; subst.
  constructor; [|apply IH; assumption].
  intros Hin. apply Hk. clear IH Hn Hn' Hk Hg.
  induction m as [|[k' s'] m IH]; simpl in *; [contradiction|].
  inversion Hg' as [|? ? Hgk' Hg'']; subst. simpl in *.
  destruct Hin as [Heq|Hin].
  - left. apply property_name_inj; [assumption|assumption|exact Heq].
  - right. apply IH; assumption.
Qed.

Lemma fromEntries_from (m : StatsMap) :
  forall o : list (string * BlockStats),
    NoDup (map fst o ++ map fst (map as_property m)) ->
    fold_left (fun o e => map_set String.eqb (property_name (fst e)) (snd e) o) m o
    = (o ++ map as_property m)%list.
Proof.
  induction m as [|[k s] m IH]; intros o Hn; cbn [fold_left map].
  - rewrite app_nil_r. reflexivity.
  - cbn [map as_property fst snd] in Hn.
    pose proof (NoDup_remove_2 _ _ _ Hn) as Hk.
    assert (Ho : ~ In (property_name k) (map fst o))
      by (intros Hin; apply Hk, in_or_app; left; exact Hin).
    cbn [fst snd]. rewrite (map_set_absent String.eqb String.eqb_spec _ _ _ Ho).
    rewrite IH.
    + rewrite <- app_assoc. reflexivity.
    + rewrite map_app, <- app_assoc. exact Hn.
Qed.

Lemma fromEntries_clean (m : StatsMap) :
  clean_keys m -> fromEntries m = map as_property m.
Proof.
  intros H. unfold fromEntries. rewrite fromEntries_from; [reflexivity|].
  exact (property_names_nodup m H).
Qed.

Lemma property_get (id : string) (m : StatsMap) :
  Forall (fun e => good_key (fst e)) m ->
  map_get String.eqb id (map as_property m)
  = map_get key_eqb (if String.eqb id "null" then None else Some id) m.
Proof.
  induction 1 as [|[k s] m Hk _ IH]; [reflexivity|].
  cbn [map as_property map_get fst snd]. rewrite IH.
  unfold good_key in Hk. cbn [fst] in Hk.
  destruct k as [x|]; cbn [property_name].
  - destruct (String.eqb_spec id "null") as [->|Hne]; cbn [key_eqb].
    + destruct (String.eqb_spec "null" x); [congruence|reflexivity].
    + reflexivity.
  - destruct (String.eqb id "null"); reflexivity.
Qed.

(** The parsed parcels of [input] that are counted under the property
    [id]. *)
Definition in_block (size : Z) (id : string) (x : ParsedParcel) : bool :=
  String.eqb id (property_name (stats_key size x)).

Definition block_members (size : Z) (id : string) (input : list Parcel)
    : list ParsedParcel :=
  filter (in_block size id) (parsed_parcels input).

Lemma in_block_key (size : Z) (id : string) (x : ParsedParcel) :
  key_eqb (if String.eqb id "null" then None else Some id) (stats_key size x)
  = in_block size id x.
Proof.
  unfold in_block. pose proof (stats_key_good size x) as Hg.
  unfold good_key in Hg. destruct (stats_key size x) as [k|]; cbn [property_name].
  - destruct (String.eqb_spec id "null") as [->|Hne]; cbn [key_eqb].
    + destruct (String.eqb_spec "null" k); [congruence|reflexivity].
    + reflexivity.
  - destruct (String.eqb id "null"); reflexivity.
Qed.

Lemma fixed_mode_stats (input : list Parcel) (options : Options) (id : string) :
  or_default (useNaturalBoundaries options) false = false ->
  stats_of (map_get String.eqb id (blockStats (assignBlockIds input options)))
  = house_stats
      (map number_of
         (block_members (or_default (blockSize options) defaultBlockSize) id input)).
Proof.
  intros Hfixed. unfold assignBlockIds. rewrite Hfixed.
  pose proof (group_parcel_groups input [] [] (Forall_nil _)) as [_ Hperm].
  destruct (fold_left group_parcel input ([], [])) as [errors groups].
  cbn [snd app] in Hperm.
  set (size := or_default (blockSize options) defaultBlockSize).
  set (gap := or_default (gapThreshold options) defaultGapThreshold).
  pose proof (fixed_streets_stats size gap groups (errors, [])) as Hs.
  destruct (fold_left (process_street size false gap) groups (errors, []))
    as [results stats].
  cbn [snd] in Hs. cbn [blockStats].
  assert (Hclean : clean_keys stats).
  { rewrite Hs. apply count_parcels_clean. split; constructor. }
  rewrite (fromEntries_clean stats Hclean), (property_get id stats (proj2 Hclean)).
  rewrite Hs, count_parcels_get. cbn [map_get stats_of option_map].
  rewrite stats_join_none. apply house_stats_perm.
  apply Permutation_map. unfold block_members.
  rewrite (filter_ext _ _ (in_block_key size id)).
  apply filter_perm. exact Hperm.
Qed.

(** X19.  With blocks of a fixed size the statistics are exact: a block has
    an entry exactly when a parsed parcel of the input falls into it, and
    the entry holds the number of these parcels, the smallest and the
    largest of their house numbers. *)
Theorem assignBlockIds_fixed_stats :
  forall (input : list Parcel) (options : Options) (id : string),
    or_default (useNaturalBoundaries options) false = false ->
    let size := or_default (blockSize options) defaultBlockSize in
    let numbers := map number_of (block_members size id input) in
    match map_get String.eqb id (blockStats (assignBlockIds input options)) with
    | None => numbers = []
    | Some s =>
        count s = Z.of_nat (List.length numbers)
        /\ exists lo hi,
             minNumber s = Fin lo /\ maxNumber s = Fin hi
             /\ In lo numbers /\ In hi numbers
             /\ forall n, In n numbers -> lo <= n <= hi
    end.
Proof.
  intros input options id Hfixed size numbers.
  pose proof (fixed_mode_stats input options id Hfixed) as H.
  pose proof (house_stats_spec numbers) as Hspec.
  fold size in H. fold numbers in H. rewrite <- H in Hspec.
  destruct (map_get String.eqb id (blockStats (assignBlockIds input options)))
    as [s|]; exact Hspec.
Qed.

Lemma assignBlockIds_fixed_stats_witness :
  let input :=
    [ {| parcel_id := "1"; address := JString "1234 Woodward Ave" |};
      {| parcel_id := "2"; address := JString "no number" |};
      {| parcel_id := "3"; address := JString "1250 Woodward Ave" |};
      {| parcel_id := "4"; address := JString "1301 Woodward Ave" |};
      {| parcel_id := "5"; address := JString "1206 WOODWARD AVE" |} ] in
  match map_get String.eqb "woodward_1200_1299"
          (blockStats (assignBlockIds input noOptions)) with
  | None => False
  | Some s => count s = 3 /\ minNumber s = Fin 1206 /\ maxNumber s = Fin 1250
  end.
Proof.
  intros input.
  pose proof (assignBlockIds_fixed_stats input noOptions "woodward_1200_1299"
                eq_refl) as H.
  cbv zeta in H.
  match type of H with
  | context [map number_of ?b] =>
      assert (Hn : map number_of b = [1234; 1250; 1206]) by (vm_compute; reflexivity);
      rewrite Hn in H; clear Hn
  end.
  destruct (map_get String.eqb "woodward_1200_1299"
              (blockStats (assignBlockIds input noOptions))) as [s|].
  - destruct H as (Hc & lo & hi & Hlo & Hhi & Hin1 & Hin2 & Hall).
    cbn [In List.length] in Hc, Hin1, Hin2.
    split; [exact Hc|]. rewrite Hlo, Hhi.
    pose proof (Hall 1206 (or_intror (or_intror (or_introl eq_refl)))) as H1.
    pose proof (Hall 1250 (or_intror (or_introl eq_refl))) as H2.
    split; f_equal.
    + destruct Hin1 as [<-|[<-|[<-|[]]]]; lia.
    + destruct Hin2 as [<-|[<-|[<-|[]]]]; lia.
  - discriminate H.
Defined.

(** ** The statistics over the chunks of the sales file *)

Lemma merge_entry_get (id k : string) (s : BlockStats)
    (g : list (string * BlockTotals)) :
  totals_of (map_get String.eqb id (merge_entry g (k, s)))
  = if String.eqb id k
    then stats_join (totals_of (map_get String.eqb id g)) (stats_of (Some s))
    else totals_of (map_get String.eqb id g).
Proof.
  unfold merge_entry, map_has.
  destruct (map_get String.eqb k g) as [t|] eqn:E.
  - rewrite E, (map_get_set String.eqb String.eqb_spec).
    destruct (String.eqb_spec id k) as [->|Hne]; [|reflexivity].
    rewrite E. reflexivity.
  - rewrite (map_get_set_same String.eqb String.eqb_refl).
    rewrite (map_set_set_same String.eqb String.eqb_refl).
    rewrite (map_get_set String.eqb String.eqb_spec).
    destruct (String.eqb_spec id k) as [->|Hne]; [|reflexivity].
    rewrite E. reflexivity.
Qed.

Lemma merge_entries_get (id : string) (entries : list (string * BlockStats)) :
  NoDup (map fst entries) ->
  forall g : list (string * BlockTotals),
    totals_of (map_get String.eqb id (fold_left merge_entry entries g))
    = stats_join (totals_of (map_get String.eqb id g))
        (stats_of (map_get String.eqb id entries)).
Proof.
  induction entries as [|[k s] entries IH]; intros Hn g; [reflexivity|].
  inversion Hn as [|? ? Hk Hn']; subst.
  cbn [fold_left]. rewrite (IH Hn'), merge_entry_get. cbn [map_get].
  destruct (String.eqb_spec id k) as [->|Hne]; [|reflexivity].
  rewrite (map_get_absent String.eqb String.eqb_spec k entries Hk). reflexivity.
Qed.

Lemma assignBlockIds_keys (input : list Parcel) :
  NoDup (map fst (blockStats (assignBlockIds input noOptions))).
Proof.
  unfold assignBlockIds. cbn [noOptions useNaturalBoundaries or_default].
  destruct (fold_left group_parcel input ([], [])) as [errors groups].
  match goal with
  | |- context [fold_left (process_street ?size false ?gap) groups ?st] =>
      pose proof (fixed_streets_stats size gap groups st) as Hs;
      destruct (fold_left (process_street size false gap) groups st)
        as [results stats]
  end.
  cbn [snd] in Hs. cbn [blockStats].
  assert (Hclean : clean_keys stats).
  { rewrite Hs. apply count_parcels_clean. split; constructor. }
  rewrite (fromEntries_clean stats Hclean).
  exact (property_names_nodup stats Hclean).
Qed.

Definition chunk_stats (id : string) (input : list Parcel) : option (Z * num * num) :=
  house_stats (map number_of (block_members defaultBlockSize id input)).

Lemma parsed_parcels_app (l1 l2 : list Parcel) :
  parsed_parcels (l1 ++ l2) = (parsed_parcels l1 ++ parsed_parcels l2)%list.
Proof.
  induction l1 as [|p l1 IH]; [reflexivity|]. cbn [app parsed_parcels].
  destruct (parseAddress (address p)); [cbn [app]; rewrite IH; reflexivity|exact IH].
Qed.

Lemma chunk_stats_app (id : string) (l1 l2 : list Parcel) :
  chunk_stats id (l1 ++ l2) = stats_join (chunk_stats id l1) (chunk_stats id l2).
Proof.
  unfold chunk_stats, block_members.
  rewrite parsed_parcels_app, filter_app, map_app. apply house_stats_app.
Qed.

Lemma process_chunk_get (id : string) (chunk : list Parcel)
    (g : list (string * BlockTotals)) :
  totals_of (map_get String.eqb id (process_chunk g chunk))
  = stats_join (totals_of (map_get String.eqb id g)) (chunk_stats id chunk).
Proof.
  unfold process_chunk.
  rewrite (merge_entries_get id _ (assignBlockIds_keys chunk)).
  rewrite (fixed_mode_stats chunk noOptions id eq_refl). reflexivity.
Qed.

Lemma process_chunks_get (id : string) (chunks : list (list Parcel)) :
  forall g : list (string * BlockTotals),
    totals_of (map_get String.eqb id (fold_left process_chunk chunks g))
    = stats_join (totals_of (map_get String.eqb id g))
        (chunk_stats id (List.concat chunks)).
Proof.
  induction chunks as [|chunk chunks IH]; intros g; [reflexivity|].
  cbn [fold_left List.concat]. rewrite IH, process_chunk_get, chunk_stats_app.
  apply stats_join_assoc.
Qed.

(** X20.  Cutting the sales file into chunks does not change the
    statistics: for every block the count, the smallest and the largest
    house number that [processSalesData] adds up over the chunks are those
    of one run of [assignBlockIds] over all the parcels. *)
Theorem process_chunks_stats :
  forall (chunks : list (list Parcel)) (id : string),
    totals_of (map_get String.eqb id (process_chunks chunks))
    = stats_of (map_get String.eqb id
                  (blockStats (assignBlockIds (List.concat chunks) noOptions))).
Proof.
  intros chunks id. unfold process_chunks.
  rewrite process_chunks_get, (fixed_mode_stats _ noOptions id eq_refl).
  cbn [map_get totals_of option_map]. apply stats_join_none.
Qed.

(** ** The parcels of a block when the block is saved *)

Lemma single_run (p : Parcel) :
  exists r,
    parcels (assignBlockIds [p] noOptions) = [r]
    /\ block_id r = generateBlockIdFromAddress (parseAddress (address p)) defaultBlockSize.
Proof.
  destruct (fixed_mode_records [p] noOptions eq_refl) as (Hperm & Hrec).
  cbv zeta in Hperm, Hrec.
  destruct (parcels (assignBlockIds [p] noOptions)) as [|r [|r' rs]].
  - apply Permutation_length in Hperm. discriminate.
  - exists r. split; [reflexivity|].
    apply Permutation_length_1 in Hperm. cbn [map] in Hperm.
    inversion Hrec as [|? ? (Hp & _ & Hid) _]; subst.
    rewrite Hid, Hp. cbn [or_default noOptions blockSize]. congruence.
  - apply Permutation_length in Hperm. discriminate.
Qed.

(** X21.  The lookup that files a parcel under a block when the block is
    saved agrees with the identifier the parcel received in its chunk,
    whatever else the chunk held. *)
Theorem filed_under_agrees :
  forall (chunk : list Parcel) (r : Result) (id : string),
    In r (parcels (assignBlockIds chunk noOptions)) ->
    (filed_under id (result_parcel r) = true <-> block_id r = Some id).
Proof.
  intros chunk r id Hin.
  destruct (fixed_mode_records chunk noOptions eq_refl) as (_ & Hrec).
  cbv zeta in Hrec. rewrite Forall_forall in Hrec.
  destruct (Hrec r Hin) as (Hp & _ & Hid).
  cbn [or_default noOptions blockSize] in Hid. rewrite Hp in Hid.
  destruct (single_run (result_parcel r)) as (r0 & Hr0 & Hid0).
  unfold filed_under. rewrite Hr0. cbn [nth_error]. rewrite Hid0, Hid.
  destruct (generateBlockIdFromAddress (parseAddress (address (result_parcel r)))
              defaultBlockSize) as [k|].
  - destruct (String.eqb_spec k id) as [->|Hne]; split; congruence.
  - split; discriminate.
Qed.

Lemma filed_under_agrees_witness :
  let chunk :=
    [ {| parcel_id := "1"; address := JString "1234 Woodward Ave" |};
      {| parcel_id := "2"; address := JString "500 Main St" |} ] in
  let r :=
    {| result_parcel := {| parcel_id := "2"; address := JString "500 Main St" |};
       result_parsed := parseAddress (JString "500 Main St");
       block_id := Some "main_500_599"; parse_error := false;
       block_method := Some "fixed_size" |} in
  filed_under "main_500_599" (result_parcel r) = true <-> block_id r = Some "main_500_599".
Proof.
  intros chunk r.
  apply (filed_under_agrees chunk r "main_500_599").
  vm_compute. right. left. reflexivity.
Defined.
